(** * 3fs-storage: the CRAQ chain, the local block store and the block service

    A shallow embedding of [internal/craq], [internal/storage] and
    [internal/block], and the properties of the storage specification
    stated over it.

    Conventions of the embedding:
    - a Go [string] is a [string] (a sequence of bytes); [len] is
      [String.length] and [s[:n]] is [go_slice_to], which panics out of range;
    - a Go [[]byte] is [bytes]: [None] is the nil slice, [Some l] a non-nil
      slice with contents [l];
    - a Go [int] / [int64] is a [Z] kept in range by [wrap_int];
    - a Go [error] is [option error], [None] being [nil];
    - a runtime panic is the [None] of the outer [option] of an operation;
    - pointers to heap objects shared between goroutines ([*Block]) are
      locations of an explicit heap; [*Node] pointers are positions in the
      chain's node list;
    - [time.Now().UnixNano()] is an argument of the operation that reads it;
    - the goroutine started by [Chain.Write] is a value, [MarkClean], that a
      scheduler runs later with [run_goroutine]. *)

From Stdlib Require Import ZArith List String Ascii Strings.Byte Bool Lia.
From stdpp Require Import base option list gmap strings fin_maps fin_sets.

Local Open Scope Z_scope.

(** ** Go primitives *)

Definition int_max : Z := 2 ^ 63 - 1.
Definition int_min : Z := - 2 ^ 63.

(** Two's-complement wrap-around of a 64-bit signed integer. *)
Definition wrap_int (x : Z) : Z := (x + 2 ^ 63) mod 2 ^ 64 - 2 ^ 63.

Definition int_add (x y : Z) : Z := wrap_int (x + y).

(** [len(x)] as an [int]. *)
Definition len {A} (l : list A) : Z := Z.of_nat (length l).

Definition bytes : Type := option (list byte).

Definition bytes_contents (b : bytes) : list byte := default [] b.

(** [s[:n]]: [None] is the out-of-range panic. *)
Definition go_slice_to (s : string) (n : nat) : option string :=
  if (n <=? String.length s)%nat then Some (substring 0 n s) else None.

Inductive errno : Type := ENOENT | EISDIR | ENOTDIR | ENOTEMPTY.

(** Errors: [errors.New] and [fmt.Errorf] without [%w] give a message,
    [fmt.Errorf("...: %w", err)] wraps, the [os] package reports a
    [*PathError] carrying the errno. *)
Inductive error : Type :=
| errors_New (msg : string)
| Errorf_w (prefix : string) (inner : error)
| PathError (op : string) (path : string) (e : errno).

(** [os.IsNotExist] looks at the errno of an unwrapped [*PathError]. *)
Definition os_IsNotExist (err : option error) : bool :=
  match err with
  | Some (PathError _ _ ENOENT) => true
  | _ => false
  end.

(** [if err != nil { return fmt.Errorf("prefix: %w", err) }; return nil] *)
Definition wrap_error (prefix : string) (err : option error) : option error :=
  match err with
  | Some e => Some (Errorf_w prefix e)
  | None => None
  end.

(** ** internal/craq *)

Module craq.

Record Node : Type := mkNode {
  Node_ID : string;
  Address : string;
  IsHead : bool;
  IsTail : bool;
  NextNode : option nat;
  PrevNode : option nat
}.

Record BlockVersion : Type := mkBlockVersion {
  Version : Z;
  Data : bytes;
  Metadata : bytes;
  Timestamp : Z;
  Clean : bool
}.

Record Block : Type := mkBlock {
  Block_ID : string;
  Versions : list BlockVersion
}.

Definition loc : Type := nat.

(** [blocks] holds [*Block] pointers; the objects live in [heap], where
    the goroutines started by [Write] still reach them after a [Delete]. *)
Record Chain : Type := mkChain {
  chainLength : Z;
  replicaFactor : Z;
  nodes : list Node;
  head : option nat;
  tail : option nat;
  blocks : gmap string loc;
  heap : gmap loc Block
}.

(** The body of the goroutine of [Write]: it captured the block pointer
    and [nextVersion]. *)
Inductive goroutine : Type := MarkClean (l : loc) (nextVersion : Z).

Definition NewChain (chainLength replicaFactor : Z) : Chain + error :=
  if chainLength <=? 0 then
    inr (errors_New "chain length must be greater than zero")
  else if (replicaFactor <=? 0) || (chainLength <? replicaFactor) then
    inr (errors_New
      "replica factor must be greater than zero and less than or equal to chain length")
  else
    inl {| chainLength := chainLength; replicaFactor := replicaFactor;
           nodes := []; head := None; tail := None;
           blocks := ∅; heap := ∅ |}.

Definition set_nodes (c : Chain) (ns : list Node) (h t : option nat) : Chain :=
  {| chainLength := chainLength c; replicaFactor := replicaFactor c;
     nodes := ns; head := h; tail := t;
     blocks := blocks c; heap := heap c |}.

Definition set_blocks (c : Chain) (bs : gmap string loc) (hp : gmap loc Block) : Chain :=
  {| chainLength := chainLength c; replicaFactor := replicaFactor c;
     nodes := nodes c; head := head c; tail := tail c;
     blocks := bs; heap := hp |}.

(** [c.tail.IsTail = false; c.tail.NextNode = node] *)
Definition unlink_tail (next : nat) (n : Node) : Node :=
  {| Node_ID := Node_ID n; Address := Address n; IsHead := IsHead n;
     IsTail := false; NextNode := Some next; PrevNode := PrevNode n |}.

(** The outer [None] is the nil dereference of [c.tail] on a chain whose
    node list is not empty while its tail pointer is nil. *)
Definition AddNode (c : Chain) (id address : string) : option (Chain * option error) :=
  if len (nodes c) >=? chainLength c then
    Some (c, Some (errors_New "chain is already at maximum length"))
  else
    let i := length (nodes c) in
    if (len (nodes c) =? 0) then
      let node := mkNode id address true true None None in
      Some (set_nodes c (nodes c ++ [node]) (Some i) (Some i), None)
    else
      t ← tail c;
      _ ← nodes c !! t;
      let node := mkNode id address false true None (Some t) in
      Some (set_nodes c (alter (unlink_tail i) t (nodes c) ++ [node])
                      (head c) (Some i), None).

Definition Initialize (c : Chain) : Chain * option error :=
  if len (nodes c) =? 0 then
    (c, Some (errors_New "cannot initialize an empty chain"))
  else (c, None).

(** The block a map entry points to. *)
Definition deref (c : Chain) (l : loc) : Block :=
  default (mkBlock "" []) (heap c !! l).

Definition nextVersion_of (vs : list BlockVersion) : Z :=
  match last vs with
  | Some v => int_add (Version v) 1
  | None => 1
  end.

Definition Write (c : Chain) (blockID : string) (data metadata : bytes) (now : Z)
  : Chain * option error * option goroutine :=
  match head c with
  | None => (c, Some (errors_New "chain has no head node"), None)
  | Some _ =>
    let '(l, block, bs) :=
      match blocks c !! blockID with
      | Some l => (l, deref c l, blocks c)
      | None =>
        let l := fresh (dom (heap c)) in
        (l, mkBlock blockID [], <[blockID := l]> (blocks c))
      end in
    let nextVersion := nextVersion_of (Versions block) in
    let version := mkBlockVersion nextVersion data metadata now false in
    let block' := mkBlock (Block_ID block) (Versions block ++ [version]) in
    (set_blocks c bs (<[l := block']> (heap c)), None,
     Some (MarkClean l nextVersion))
  end.

Definition set_clean (v : BlockVersion) : BlockVersion :=
  {| Version := Version v; Data := Data v; Metadata := Metadata v;
     Timestamp := Timestamp v; Clean := true |}.

(** [for _, v := range block.Versions { if v.Version == nextVersion
    { v.Clean = true; break } }] *)
Fixpoint mark_clean (nextVersion : Z) (vs : list BlockVersion) : list BlockVersion :=
  match vs with
  | [] => []
  | v :: rest =>
    if Version v =? nextVersion then set_clean v :: rest
    else v :: mark_clean nextVersion rest
  end.

Definition run_goroutine (g : goroutine) (c : Chain) : Chain :=
  match g with
  | MarkClean l nextVersion =>
    match heap c !! l with
    | Some block =>
      set_blocks c (blocks c)
        (<[l := mkBlock (Block_ID block) (mark_clean nextVersion (Versions block))]> (heap c))
    | None => c
    end
  end.

(** [for i := len(vs) - 1; i >= 0; i-- { if vs[i].Clean { ...; break } }],
    with [n] the number of indices still to visit. *)
Fixpoint latest_clean_from (vs : list BlockVersion) (n : nat) : option BlockVersion :=
  match n with
  | O => None
  | S i =>
    match vs !! i with
    | Some v => if Clean v then Some v else latest_clean_from vs i
    | None => None
    end
  end.

Definition Read (c : Chain) (blockID : string) : bytes * bytes * option error :=
  match blocks c !! blockID with
  | None => (None, None, Some (errors_New ("block " ++ blockID ++ " not found")))
  | Some l =>
    let block := deref c l in
    match Versions block with
    | [] => (None, None, Some (errors_New ("block " ++ blockID ++ " has no versions")))
    | oldest :: _ =>
      let latestCleanVersion :=
        match latest_clean_from (Versions block) (length (Versions block)) with
        | Some v => v
        | None => oldest
        end in
      (Data latestCleanVersion, Metadata latestCleanVersion, None)
    end
  end.

Definition Delete (c : Chain) (blockID : string) : Chain * option error :=
  match blocks c !! blockID with
  | None => (c, Some (errors_New ("block " ++ blockID ++ " not found")))
  | Some _ => (set_blocks c (delete blockID (blocks c)) (heap c), None)
  end.

Record Stats : Type := mkStats {
  node_count : Z;
  block_count : Z;
  total_versions : Z
}.

Definition GetStats (c : Chain) : Stats * option error :=
  ({| node_count := len (nodes c);
      block_count := Z.of_nat (size (blocks c));
      total_versions :=
        map_fold (fun _ l acc => int_add acc (len (Versions (deref c l)))) 0 (blocks c) |},
   None).

Definition IsHeadNode (c : Chain) (nodeID : string) : bool :=
  match head c ≫= (nodes c !!.) with
  | None => false
  | Some n => bool_decide (Node_ID n = nodeID)
  end.

Definition IsTailNode (c : Chain) (nodeID : string) : bool :=
  match tail c ≫= (nodes c !!.) with
  | None => false
  | Some n => bool_decide (Node_ID n = nodeID)
  end.

Definition GetNodeCount (c : Chain) : Z := len (nodes c).

End craq.

(** ** The file system under the local block store

    The part of the operating system that [path/filepath], [os] and
    [io/ioutil] expose to the storage package: regular files with their
    contents and directories, both named by their cleaned path.  The root
    and the working directory (and its ancestors) always exist.  An
    operation either takes effect as a whole or fails and leaves the file
    system as it was. *)

Module fsys.

Local Open Scope string_scope.

Record FS : Type := mkFS {
  files : gmap string (list byte);
  dirs : gset string
}.

Definition slash : ascii := "/"%char.

(** The elements of a path between its separators. *)
Fixpoint path_elems (s : string) : list string :=
  match s with
  | EmptyString => [EmptyString]
  | String c r =>
    if bool_decide (c = slash) then EmptyString :: path_elems r
    else match path_elems r with
         | h :: t => String c h :: t
         | [] => [String c EmptyString]
         end
  end.

Fixpoint join_elems (l : list string) : string :=
  match l with
  | [] => ""
  | [e] => e
  | e :: rest => e ++ "/" ++ join_elems rest
  end.

Definition is_rooted (path : string) : bool :=
  match path with
  | String c _ => bool_decide (c = slash)
  | EmptyString => false
  end.

(** One element of [path.Clean]'s scan; [stack] holds the elements kept
    so far, the last one first. *)
Definition clean_step (rooted : bool) (stack : list string) (e : string) : list string :=
  if bool_decide (e = "") || bool_decide (e = ".") then stack
  else if bool_decide (e = "..") then
    match stack with
    | top :: rest => if bool_decide (top = "..") then e :: stack else rest
    | [] => if rooted then [] else [e]
    end
  else e :: stack.

(** [filepath.Clean] on a system whose separator is [/]. *)
Definition filepath_Clean (path : string) : string :=
  let rooted := is_rooted path in
  let body := join_elems (rev (fold_left (clean_step rooted) (path_elems path) [])) in
  if rooted then "/" ++ body
  else if bool_decide (body = "") then "." else body.

(** [filepath.Join]: leading empty elements are dropped, the rest is
    joined with the separator and cleaned. *)
Fixpoint filepath_Join (elem : list string) : string :=
  match elem with
  | [] => ""
  | e :: rest =>
    if bool_decide (e = "") then filepath_Join rest
    else filepath_Clean (join_elems elem)
  end.

Definition parent_dir (p : string) : string := filepath_Clean (p ++ "/..").

(** The directories that exist whatever the program did: the root, the
    working directory and the directories above it. *)
Definition ambient_dir (p : string) : bool :=
  forallb (fun e => bool_decide (e = "") || bool_decide (e = ".") || bool_decide (e = ".."))
          (path_elems p).

Fixpoint ancestors_upto (fuel : nat) (p : string) : list string :=
  match fuel with
  | O => []
  | S k =>
    let q := parent_dir p in
    if ambient_dir q then [] else q :: ancestors_upto k q
  end.

Definition ancestors (p : string) : list string :=
  ancestors_upto (String.length p) p.

Definition is_file (fs : FS) (p : string) : bool := bool_decide (is_Some (files fs !! p)).

Definition is_dir (fs : FS) (p : string) : bool :=
  ambient_dir p || bool_decide (p ∈ dirs fs).

(** The errno of a lookup of a path that does not exist. *)
Definition lookup_errno (fs : FS) (p : string) : errno :=
  if existsb (is_file fs) (ancestors p) then ENOTDIR else ENOENT.

Definition os_Stat (fs : FS) (path : string) : option error :=
  let p := filepath_Clean path in
  if is_file fs p || is_dir fs p then None
  else Some (PathError "stat" path (lookup_errno fs p)).

Definition ioutil_WriteFile (fs : FS) (path : string) (data : bytes) : FS * option error :=
  let p := filepath_Clean path in
  if is_dir fs p then (fs, Some (PathError "open" path EISDIR))
  else if is_file fs p || is_dir fs (parent_dir p) then
    (mkFS (<[p := bytes_contents data]> (files fs)) (dirs fs), None)
  else (fs, Some (PathError "open" path (lookup_errno fs p))).

Definition ioutil_ReadFile (fs : FS) (path : string) : bytes * option error :=
  let p := filepath_Clean path in
  match files fs !! p with
  | Some contents => (Some contents, None)
  | None =>
    if is_dir fs p then (None, Some (PathError "read" path EISDIR))
    else (None, Some (PathError "open" path (lookup_errno fs p)))
  end.

Definition has_entries (fs : FS) (p : string) : bool :=
  existsb (fun q => bool_decide (parent_dir q = p))
          (elements (dom (files fs)) ++ elements (dirs fs)).

Definition os_Remove (fs : FS) (path : string) : FS * option error :=
  let p := filepath_Clean path in
  if is_file fs p then (mkFS (delete p (files fs)) (dirs fs), None)
  else if is_dir fs p then
    if ambient_dir p || has_entries fs p then
      (fs, Some (PathError "remove" path ENOTEMPTY))
    else (mkFS (files fs) (dirs fs ∖ {[p]}), None)
  else (fs, Some (PathError "remove" path (lookup_errno fs p))).

Definition os_MkdirAll (fs : FS) (path : string) : FS * option error :=
  let p := filepath_Clean path in
  if is_dir fs p then (fs, None)
  else if existsb (is_file fs) (p :: ancestors p) then
    (fs, Some (PathError "mkdir" path ENOTDIR))
  else (mkFS (files fs) (dirs fs ∪ list_to_set (p :: ancestors p)), None).

End fsys.

(** ** crypto/sha256, encoding/hex and encoding/json, as far as the storage
       package uses them *)

Module gostd.

Definition mask32 (x : Z) : Z := Z.land x (2 ^ 32 - 1).
Definition add32 (x y : Z) : Z := mask32 (x + y).
Definition rotr32 (n x : Z) : Z :=
  Z.lor (Z.shiftr x n) (mask32 (Z.shiftl x (32 - n))).
Definition not32 (x : Z) : Z := Z.lxor x (2 ^ 32 - 1).

Definition choose (e f g : Z) : Z := Z.lxor (Z.land e f) (Z.land (not32 e) g).
Definition majority (a b c : Z) : Z :=
  Z.lxor (Z.lxor (Z.land a b) (Z.land a c)) (Z.land b c).
Definition big_sigma0 (a : Z) : Z :=
  Z.lxor (Z.lxor (rotr32 2 a) (rotr32 13 a)) (rotr32 22 a).
Definition big_sigma1 (e : Z) : Z :=
  Z.lxor (Z.lxor (rotr32 6 e) (rotr32 11 e)) (rotr32 25 e).
Definition small_sigma0 (w : Z) : Z :=
  Z.lxor (Z.lxor (rotr32 7 w) (rotr32 18 w)) (Z.shiftr w 3).
Definition small_sigma1 (w : Z) : Z :=
  Z.lxor (Z.lxor (rotr32 17 w) (rotr32 19 w)) (Z.shiftr w 10).

(** The round constants and the initial state are the leading 32
    fractional bits of the cube and square roots of the first primes. *)
Definition is_prime (n : nat) : bool :=
  (2 <=? n)%nat && forallb (fun d => negb (n mod d =? 0)%nat) (seq 2 (n - 2)).

Definition first_primes (k : nat) : list Z :=
  take k (Z.of_nat <$> filter (fun n => Is_true (is_prime n)) (seq 2 320)).

(** The integer cube root, one bit at a time. *)
Definition cube_root (n : Z) : Z :=
  fold_left (fun r b => let r' := r + 2 ^ Z.of_nat b in
                        if r' * r' * r' <=? n then r' else r)
            (rev (seq 0 40)) 0.

Definition round_constants : list Z :=
  Eval vm_compute in (fun p => mask32 (cube_root (p * 2 ^ 96))) <$> first_primes 64.

Definition initial_state : list Z :=
  Eval vm_compute in (fun p => mask32 (Z.sqrt (p * 2 ^ 64))) <$> first_primes 8.

Definition byte_val (b : byte) : Z := Z.of_N (Byte.to_N b).
Definition byte_of (z : Z) : byte := default x00 (Byte.of_N (Z.to_N (z mod 256))).

(** The big-endian bytes of the low [8 * n] bits of [z]. *)
Definition be_bytes (n : nat) (z : Z) : list byte :=
  (fun i => byte_of (Z.shiftr z (8 * Z.of_nat i))) <$> rev (seq 0 n).

Definition be_word (bs : list byte) : Z :=
  fold_left (fun acc b => acc * 256 + byte_val b) bs 0.

Definition pad_message (msg : list byte) : list byte :=
  let n := length msg in
  let zeros := ((64 + 56 - (n + 1) mod 64) mod 64)%nat in
  msg ++ [x80] ++ replicate zeros x00 ++ be_bytes 8 (8 * Z.of_nat n).

Fixpoint chunks (fuel n : nat) (l : list byte) : list (list byte) :=
  match fuel with
  | O => []
  | S k => match l with
           | [] => []
           | _ => take n l :: chunks k n (drop n l)
           end
  end.

Definition word_at (ws : list Z) (i : nat) : Z := default 0 (ws !! i).

Definition schedule (block : list byte) : list Z :=
  fold_left
    (fun w t =>
       w ++ [add32 (add32 (small_sigma1 (word_at w (t - 2))) (word_at w (t - 7)))
                   (add32 (small_sigma0 (word_at w (t - 15))) (word_at w (t - 16)))])
    (seq 16 48) (be_word <$> chunks 16 4 block).

Definition round (st : list Z) (kw : Z * Z) : list Z :=
  match st with
  | [a; b; c; d; e; f; g; h] =>
    let t1 := add32 (add32 (add32 h (big_sigma1 e)) (choose e f g))
                    (add32 (fst kw) (snd kw)) in
    let t2 := add32 (big_sigma0 a) (majority a b c) in
    [add32 t1 t2; a; b; c; add32 d t1; e; f; g]
  | _ => st
  end.

Definition compress (st : list Z) (block : list byte) : list Z :=
  zip_with add32 st (fold_left round (zip round_constants (schedule block)) st).

(** [sha256.Sum256] *)
Definition sha256_Sum256 (data : list byte) : list byte :=
  let padded := pad_message data in
  let st := fold_left compress (chunks (length padded) 64 padded) initial_state in
  st ≫= be_bytes 4.

Definition hex_digit (z : Z) : ascii :=
  default "0"%char (get (Z.to_nat (z mod 16)) "0123456789abcdef").

Definition hex_byte (z : Z) : string :=
  String (hex_digit (z / 16)) (String (hex_digit (z mod 16)) EmptyString).

(** [hex.EncodeToString] *)
Definition hex_EncodeToString (bs : list byte) : string :=
  fold_right (fun b acc => (hex_byte (byte_val b) ++ acc)%string) "" bs.

(** [fmt.Sprintf] with the verb [%02x] on a value below 256. *)
Definition Sprintf_02x (i : Z) : string := hex_byte i.

Fixpoint decimal_digits (fuel : nat) (n : Z) (acc : string) : string :=
  match fuel with
  | O => acc
  | S k =>
    let acc' := String (hex_digit (n mod 10)) acc in
    if n <? 10 then acc' else decimal_digits k (n / 10) acc'
  end.

(** An integer in JSON (and [strconv.Itoa]). *)
Definition Itoa (n : Z) : string :=
  if n <? 0 then String "-" (decimal_digits (Z.to_nat (Z.log2 (- n)) + 1) (- n) "")
  else decimal_digits (Z.to_nat (Z.log2 n) + 1) n "".

Definition dquote : string := String (ascii_of_nat 34) EmptyString.

Definition json_key (k : string) : string := (dquote ++ k ++ dquote ++ ":")%string.

End gostd.

(** ** internal/storage *)

Module storage.

Import fsys gostd.
Local Open Scope string_scope.

Record LocalStorage : Type := mkLocalStorage {
  dataPath : string;
  maxSizeGB : Z;
  cache : gmap string bytes
}.

Definition set_cache (s : LocalStorage) (m : gmap string bytes) : LocalStorage :=
  {| dataPath := dataPath s; maxSizeGB := maxSizeGB s; cache := m |}.

Definition NewLocalStorage (dataPath : string) (maxSizeGB : Z) : LocalStorage + error :=
  if bool_decide (dataPath = "") then inr (errors_New "data path cannot be empty")
  else if (maxSizeGB <=? 0)%Z then inr (errors_New "max size must be greater than zero")
  else inl {| dataPath := dataPath; maxSizeGB := maxSizeGB; cache := ∅ |}.

(** The loop of [Initialize] over the shard numbers still to create. *)
Fixpoint make_shards (s : LocalStorage) (fs : FS) (shards : list Z) : FS * option error :=
  match shards with
  | [] => (fs, None)
  | i :: rest =>
    let subdir := filepath_Join [dataPath s; Sprintf_02x i] in
    match os_MkdirAll fs subdir with
    | (fs', Some err) =>
      (fs', Some (Errorf_w ("failed to create shard directory " ++ subdir) err))
    | (fs', None) => make_shards s fs' rest
    end
  end.

Definition Initialize (s : LocalStorage) (fs : FS) : FS * option error :=
  match os_MkdirAll fs (dataPath s) with
  | (fs', Some err) => (fs', Some (Errorf_w "failed to create data directory" err))
  | (fs', None) => make_shards s fs' (Z.of_nat <$> seq 0 256)
  end.

(** The padded id of [getBlockPath]. *)
Definition pad_id (blockID : string) : string :=
  if (String.length blockID <? 2)%nat then "00" ++ blockID else blockID.

(** The shard of a block id: [blockID[:2]] after the padding. *)
Definition shard_of (blockID : string) : option string :=
  go_slice_to (pad_id blockID) 2.

Definition getBlockPath (s : LocalStorage) (blockID : string) : option string :=
  let blockID := pad_id blockID in
  shard ← go_slice_to blockID 2;
  Some (filepath_Join [dataPath s; shard; blockID]).

Definition getMetadataPath (s : LocalStorage) (blockID : string) : option string :=
  p ← getBlockPath s blockID;
  Some (p ++ ".meta").

Definition WriteBlock (s : LocalStorage) (fs : FS) (blockID : string)
    (data metadata : bytes) : option (LocalStorage * FS * option error) :=
  blockPath ← getBlockPath s blockID;
  match ioutil_WriteFile fs blockPath data with
  | (fs1, Some err) => Some (s, fs1, Some (Errorf_w "failed to write block data" err))
  | (fs1, None) =>
    r ← match metadata with
        | None => Some (fs1, None)
        | Some _ =>
          metaPath ← getMetadataPath s blockID;
          match ioutil_WriteFile fs1 metaPath metadata with
          | (fs2, Some err) =>
            Some (fst (os_Remove fs2 blockPath),
                  Some (Errorf_w "failed to write block metadata" err))
          | (fs2, None) => Some (fs2, None)
          end
        end;
    match r with
    | (fs', Some err) => Some (s, fs', Some err)
    | (fs', None) => Some (set_cache s (<[blockID := data]> (cache s)), fs', None)
    end
  end.

Definition ReadBlockMetadata (s : LocalStorage) (fs : FS) (blockID : string)
  : option (bool * bytes * option error) :=
  metaPath ← getMetadataPath s blockID;
  if os_IsNotExist (os_Stat fs metaPath) then Some (false, None, None)
  else match ioutil_ReadFile fs metaPath with
       | (_, Some err) => Some (true, None, Some (Errorf_w "failed to read block metadata" err))
       | (metadata, None) => Some (true, metadata, None)
       end.

Definition ReadBlock (s : LocalStorage) (fs : FS) (blockID : string)
  : option (LocalStorage * bytes * bytes * option error) :=
  match cache s !! blockID with
  | Some data =>
    '(hasMetadata, metadata, err) ← ReadBlockMetadata s fs blockID;
    match err with
    | Some e => Some (s, None, None, Some e)
    | None =>
      if negb hasMetadata then
        Some (s, None, None, Some (errors_New ("block " ++ blockID ++ " not found")))
      else Some (s, data, metadata, None)
    end
  | None =>
    blockPath ← getBlockPath s blockID;
    if os_IsNotExist (os_Stat fs blockPath) then
      Some (s, None, None, Some (errors_New ("block " ++ blockID ++ " not found")))
    else match ioutil_ReadFile fs blockPath with
         | (_, Some err) =>
           Some (s, None, None, Some (Errorf_w "failed to read block data" err))
         | (data, None) =>
           '(_, metadata, err) ← ReadBlockMetadata s fs blockID;
           match err with
           | Some e => Some (s, None, None, Some e)
           | None => Some (set_cache s (<[blockID := data]> (cache s)), data, metadata, None)
           end
         end
  end.

Definition DeleteBlock (s : LocalStorage) (fs : FS) (blockID : string)
  : option (LocalStorage * FS * option error) :=
  blockPath ← getBlockPath s blockID;
  metaPath ← getMetadataPath s blockID;
  match os_Remove fs blockPath with
  | (fs1, err1) =>
    if bool_decide (is_Some err1) && negb (os_IsNotExist err1) then
      Some (s, fs1, wrap_error "failed to delete block data" err1)
    else match os_Remove fs1 metaPath with
         | (fs2, err2) =>
           if bool_decide (is_Some err2) && negb (os_IsNotExist err2) then
             Some (s, fs2, wrap_error "failed to delete block metadata" err2)
           else Some (set_cache s (delete blockID (cache s)), fs2, None)
         end
  end.

Definition Flush (s : LocalStorage) : LocalStorage * option error :=
  (set_cache s ∅, None).

Definition CalculateChecksum (data : bytes) : list byte :=
  sha256_Sum256 (bytes_contents data).

Record BlockMetadata : Type := mkBlockMetadata {
  Checksum : string;
  Size : Z;
  Version : Z;
  CreatedAt : Z;
  LastModified : Z
}.

Definition NewBlockMetadata (data : bytes) (version createdAt : Z) : BlockMetadata :=
  let checksum := CalculateChecksum data in
  {| Checksum := hex_EncodeToString checksum;
     Size := len (bytes_contents data);
     Version := version;
     CreatedAt := createdAt;
     LastModified := createdAt |}.

(** [json.Marshal] of a [*BlockMetadata], with the keys of its struct
    tags; the checksum is a string of hexadecimal digits, which JSON
    leaves as they are.  Marshalling this struct cannot fail. *)
Definition json_Marshal (m : BlockMetadata) : bytes * option error :=
  (Some (list_byte_of_string
     ("{" ++ json_key "checksum" ++ dquote ++ Checksum m ++ dquote ++ ","
          ++ json_key "size" ++ Itoa (Size m) ++ ","
          ++ json_key "version" ++ Itoa (Version m) ++ ","
          ++ json_key "created_at" ++ Itoa (CreatedAt m) ++ ","
          ++ json_key "last_modified" ++ Itoa (LastModified m) ++ "}")),
   None).

End storage.

(** ** internal/block *)

Module block.

Import fsys.
Local Open Scope string_scope.

Record Service : Type := mkService {
  localStorage : storage.LocalStorage;
  craqChain : option craq.Chain
}.

Definition NewService (localStorage : option storage.LocalStorage)
    (craqChain : option craq.Chain) : Service + error :=
  match localStorage with
  | None => inr (errors_New "localStorage cannot be nil")
  | Some ls => inl {| localStorage := ls; craqChain := craqChain |}
  end.

(** The metadata [WriteBlock] builds, its first statement. *)
Definition WriteBlock_metadata (data : bytes) (now : Z) : storage.BlockMetadata :=
  storage.NewBlockMetadata data 1 now.

(** [now] is the clock reading of [WriteBlock] itself and [chain_now]
    the one [Chain.Write] takes for the version's timestamp. *)
Definition WriteBlock (s : Service) (fs : FS) (blockID : string) (data : bytes)
    (now chain_now : Z) : option (Service * FS * option error * option craq.goroutine) :=
  let metadata := WriteBlock_metadata data now in
  match storage.json_Marshal metadata with
  | (_, Some err) =>
    Some (s, fs, Some (Errorf_w "failed to marshal block metadata" err), None)
  | (metadataBytes, None) =>
    let replicated : option craq.Chain * option error * option craq.goroutine :=
      match craqChain s with
      | Some c =>
        let '(c', err, g) := craq.Write c blockID data metadataBytes chain_now in
        (Some c', err, g)
      | None => (None, None, None)
      end in
    let chain := replicated.1.1 in
    let spawned := replicated.2 in
    match replicated.1.2 with
    | Some e =>
      Some (mkService (localStorage s) chain, fs,
            Some (Errorf_w "failed to replicate block" e), spawned)
    | None =>
      '(ls, fs', err) ← storage.WriteBlock (localStorage s) fs blockID data metadataBytes;
      Some (mkService ls chain, fs',
            wrap_error "failed to write block to local storage" err, spawned)
    end
  end.

Definition ReadBlock (s : Service) (fs : FS) (blockID : string)
  : option (Service * bytes * option error) :=
  let from_chain :=
    match craqChain s with
    | Some c =>
      match craq.Read c blockID with
      | (Some data, _, None) => Some (Some data)
      | _ => None
      end
    | None => None
    end in
  match from_chain with
  | Some data => Some (s, data, None)
  | None =>
    '(ls, data, _, err) ← storage.ReadBlock (localStorage s) fs blockID;
    match err with
    | Some e => Some (mkService ls (craqChain s), None, Some (Errorf_w "failed to read block" e))
    | None => Some (mkService ls (craqChain s), data, None)
    end
  end.

Definition DeleteBlock (s : Service) (fs : FS) (blockID : string)
  : option (Service * FS * option error) :=
  let deleted : option craq.Chain * option error :=
    match craqChain s with
    | Some c => let '(c', err) := craq.Delete c blockID in (Some c', err)
    | None => (None, None)
    end in
  let chain := deleted.1 in
  match deleted.2 with
  | Some e =>
    Some (mkService (localStorage s) chain, fs,
          Some (Errorf_w "failed to delete block from replication chain" e))
  | None =>
    '(ls, fs', err) ← storage.DeleteBlock (localStorage s) fs blockID;
    Some (mkService ls chain, fs',
          wrap_error "failed to delete block from local storage" err)
  end.

Definition Initialize (s : Service) (fs : FS) : Service * FS * option error :=
  match storage.Initialize (localStorage s) fs with
  | (fs', Some err) => (s, fs', Some (Errorf_w "failed to initialize local storage" err))
  | (fs', None) =>
    match craqChain s with
    | Some c =>
      match craq.Initialize c with
      | (c', Some err) =>
        (mkService (localStorage s) (Some c'), fs',
         Some (Errorf_w "failed to initialize CRAQ chain" err))
      | (c', None) => (mkService (localStorage s) (Some c'), fs', None)
      end
    | None => (s, fs', None)
    end
  end.

End block.

(** ** The version ledger: observations and invariants *)

Module ledger.

Import craq.

(** The versions the chain holds for a block id (none when the id is
    not in the block map). *)
Definition versions_of (c : Chain) (blockID : string) : list BlockVersion :=
  match blocks c !! blockID with
  | Some l => Versions (deref c l)
  | None => []
  end.

Definition latest_version (c : Chain) (blockID : string) : option BlockVersion :=
  last (versions_of c blockID).

Definition oldest_version (c : Chain) (blockID : string) : option BlockVersion :=
  versions_of c blockID !! 0%nat.

Definition has_clean (c : Chain) (blockID : string) : bool :=
  existsb Clean (versions_of c blockID).

(** The version numbers are 1, 2, 3, ... in list order. *)
Definition numbered (vs : list BlockVersion) : bool :=
  bool_decide (Version <$> vs = Z.of_nat <$> seq 1 (length vs)).

(** One more version still fits an [int] version number. *)
Definition bounded (vs : list BlockVersion) : bool := len vs <? int_max.

Definition heap_blocks (c : Chain) : list Block := (map_to_list (heap c)).*2.

Definition chain_numbered (c : Chain) : bool :=
  forallb (fun b => numbered (Versions b)) (heap_blocks c).

Definition chain_bounded (c : Chain) : bool :=
  forallb (fun b => bounded (Versions b)) (heap_blocks c).

(** A version as it was appended; only its clean flag may have been
    raised since. *)
Definition version_kept (v v' : BlockVersion) : Prop :=
  Version v' = Version v ∧ Data v' = Data v ∧ Metadata v' = Metadata v ∧
  Timestamp v' = Timestamp v ∧ (Clean v = true → Clean v' = true).

(** [vs'] is [vs] with versions appended. *)
Definition appended (vs vs' : list BlockVersion) : Prop :=
  ∃ more, Forall2 version_kept vs (take (length vs) vs') ∧
          vs' = take (length vs) vs' ++ more.

Definition append_only (c c' : Chain) : Prop :=
  ∀ l b, heap c !! l = Some b →
    ∃ b', heap c' !! l = Some b' ∧ Block_ID b' = Block_ID b ∧
          appended (Versions b) (Versions b').

(** The node list and the tail pointer agree. *)
Definition tail_linked (c : Chain) : bool :=
  match tail c with
  | Some t => bool_decide (is_Some (nodes c !! t))
  | None => bool_decide (nodes c = [])
  end.

(** The operations of a chain, the goroutines of [Write] included. *)
Inductive op : Type :=
| OpAddNode (id address : string)
| OpInitialize
| OpWrite (blockID : string) (data metadata : bytes) (now : Z)
| OpRead (blockID : string)
| OpDelete (blockID : string)
| OpGetStats
| OpGo (g : goroutine).

(** The chain an operation leaves behind ([None] when it panics). *)
Definition exec (o : op) (c : Chain) : option Chain :=
  match o with
  | OpAddNode id address => fst <$> AddNode c id address
  | OpInitialize => Some (Initialize c).1
  | OpWrite blockID data metadata now => Some (Write c blockID data metadata now).1.1
  | OpRead _ => Some c
  | OpDelete blockID => Some (Delete c blockID).1
  | OpGetStats => Some c
  | OpGo g => Some (run_goroutine g c)
  end.

(** A schedule: operations and goroutines run one after the other. *)
Fixpoint run (ops : list op) (c : Chain) : option Chain :=
  match ops with
  | [] => Some c
  | o :: rest => c' ← exec o c; run rest c'
  end.

Definition at_most (k : Z) (vs : list BlockVersion) : bool := len vs <=? k.

Definition chain_at_most (k : Z) (c : Chain) : bool :=
  forallb (fun b => at_most k (Versions b)) (heap_blocks c).

End ledger.

(** ** The statements of the specification that the code is compared with *)

Module spec.

Import craq ledger fsys.

(** §4.1 Read: a block whose latest version is dirty and that has no
    committed version is reported with an error ([NotReady]). *)
Definition read_reports_not_ready (c : Chain) (blockID : string) : Prop :=
  (∃ v, latest_version c blockID = Some v ∧ Clean v = false) →
  has_clean c blockID = false →
  is_Some (Read c blockID).2.

(** §4.1 Write: the appended version is clean when [Write] returns
    success. *)
Definition write_returns_clean (c : Chain) (blockID : string)
    (data metadata : bytes) (now : Z) : Prop :=
  ∀ c' g, Write c blockID data metadata now = (c', None, g) →
    ∃ v, latest_version c' blockID = Some v ∧ Clean v = true.

(** [n] calls of [Service.WriteBlock] on one block id, all of which
    must succeed; the result lists the metadata each call built. *)
Fixpoint write_sequence (s : block.Service) (fs : FS) (blockID : string)
    (calls : list (bytes * Z * Z))
  : option (block.Service * FS * list storage.BlockMetadata) :=
  match calls with
  | [] => Some (s, fs, [])
  | (data, now, chain_now) :: rest =>
    match block.WriteBlock s fs blockID data now chain_now with
    | Some (s', fs', None, _) =>
      match write_sequence s' fs' blockID rest with
      | Some (s'', fs'', metas) =>
        Some (s'', fs'', block.WriteBlock_metadata data now :: metas)
      | None => None
      end
    | _ => None
    end
  end.

(** §4.3 WriteBlock: the metadata of the n-th write carries version n. *)
Definition metadata_carries_assigned_version (s : block.Service) (fs : FS)
    (blockID : string) (calls : list (bytes * Z * Z)) : Prop :=
  ∀ s' fs' metas, write_sequence s fs blockID calls = Some (s', fs', metas) →
    ∀ i m, metas !! i = Some m → storage.Version m = Z.of_nat (S i).

(** §8 round trip: a successful [WriteBlock] followed by [ReadBlock]
    returns the data written. *)
Definition write_read_round_trip (s : block.Service) (fs : FS)
    (blockID : string) (data : bytes) (now chain_now : Z) : Prop :=
  ∀ s' fs' g, block.WriteBlock s fs blockID data now chain_now = Some (s', fs', None, g) →
    ∃ s'', block.ReadBlock s' fs' blockID = Some (s'', data, None).

(** What the local store holds for a block id: its data file, its
    sidecar and its cache entry. *)
Definition local_state_removed (ls : storage.LocalStorage) (fs : FS)
    (blockID : string) : Prop :=
  ∃ blockPath metaPath,
    storage.getBlockPath ls blockID = Some blockPath ∧
    storage.getMetadataPath ls blockID = Some metaPath ∧
    files fs !! filepath_Clean blockPath = None ∧
    files fs !! filepath_Clean metaPath = None ∧
    storage.cache ls !! blockID = None.

(** §4.3 DeleteBlock: when the chain-side delete fails the error is
    surfaced and the local deletion still executes. *)
Definition delete_still_deletes_locally (s : block.Service) (fs : FS)
    (blockID : string) : Prop :=
  ∀ c, block.craqChain s = Some c → is_Some (Delete c blockID).2 →
    ∃ s' fs' e, block.DeleteBlock s fs blockID = Some (s', fs', Some e) ∧
                local_state_removed (block.localStorage s') fs' blockID.

(** §4.1 AddNode: not available once [Initialize] has succeeded. *)
Definition static_after_initialize (c : Chain) (id address : string) : Prop :=
  ∀ c', Initialize c = (c', None) →
    ∃ e, AddNode c' id address = Some (c', Some e).

End spec.

(** ** Reference states *)

Module scenario.

Import fsys.

Definition str (s : string) : bytes := Some (list_byte_of_string s).

Definition empty_chain : craq.Chain := craq.mkChain 0 0 [] None None ∅ ∅.

(** [NewChain(3, 3)] *)
Definition chain0 : craq.Chain :=
  match craq.NewChain 3 3 with inl c => c | inr _ => empty_chain end.

(** ... with this node added, as [NewStorageNode] does. *)
Definition chain1 : craq.Chain :=
  match craq.AddNode chain0 "node1" "127.0.0.1:9000" with
  | Some (c, _) => c
  | None => empty_chain
  end.

Definition empty_disk : FS := mkFS ∅ ∅.

Definition store0 : storage.LocalStorage :=
  match storage.NewLocalStorage "/data" 1 with
  | inl s => s
  | inr _ => storage.mkLocalStorage "" 0 ∅
  end.

(** The service of a node after [Initialize]. *)
Definition started : block.Service * FS * option error :=
  Eval vm_compute in block.Initialize (block.mkService store0 (Some chain1)) empty_disk.

Definition service1 : block.Service := started.1.1.
Definition disk1 : FS := started.1.2.

(** The same node without a chain. *)
Definition local_service : block.Service := block.mkService store0 None.

(** After one write of block [abc123]. *)
Definition written_once : option (block.Service * FS * option error * option craq.goroutine) :=
  Eval vm_compute in block.WriteBlock service1 disk1 "abc123" (str "old") 100 101.

Definition service2 : block.Service :=
  match written_once with Some (s, _, _, _) => s | None => service1 end.
Definition disk2 : FS :=
  match written_once with Some (_, f, _, _) => f | None => disk1 end.
Definition chain2 : craq.Chain := default empty_chain (block.craqChain service2).

(** After a second write of the same block, before any goroutine ran. *)
Definition chain3 : craq.Chain :=
  (craq.Write chain2 "abc123" (str "new") (str "{}") 201).1.1.

(** A disk on which the sidecar path of [abc123] is taken by a directory. *)
Definition blocked_disk : FS :=
  (os_MkdirAll disk1 "/data/ab/abc123.meta").1.

End scenario.

(** ** The shape of a chain *)

Module topology.

Import craq.

(** What the node at position [i] of a chain of [n] nodes looks like:
    the head is the first node and the tail the last one, and the links
    go to the neighbours. *)
Definition node_ok (n i : nat) (nd : Node) : bool :=
  Bool.eqb (IsHead nd) (i =? 0)%nat &&
  Bool.eqb (IsTail nd) (S i =? n)%nat &&
  bool_decide (NextNode nd = if (S i =? n)%nat then None else Some (S i)) &&
  bool_decide (PrevNode nd = if (i =? 0)%nat then None else Some (i - 1)%nat).

Fixpoint nodes_ok (n i : nat) (l : list Node) : bool :=
  match l with
  | [] => true
  | nd :: rest => node_ok n i nd && nodes_ok n (S i) rest
  end.

Definition topology_ok (c : Chain) : bool :=
  (len (nodes c) <=? chainLength c) &&
  bool_decide (head c = if nodes c is [] then None else Some 0%nat) &&
  bool_decide (tail c = if nodes c is [] then None else Some (length (nodes c) - 1)%nat) &&
  nodes_ok (length (nodes c)) 0 (nodes c).

(** Every id of the block map points to a block of the heap, and no two
    ids point to the same one. *)
Definition blocks_wf (c : Chain) : bool :=
  forallb (fun '(id, l) =>
             bool_decide (is_Some (heap c !! l)) &&
             forallb (fun '(id', l') => bool_decide (l' = l → id' = id))
                     (map_to_list (blocks c)))
          (map_to_list (blocks c)).

End topology.

(** * Properties *)

(** ** The chain *)

Section chain_facts.

Import craq ledger.

Lemma existsb_Clean_false (vs : list BlockVersion) (i : nat) (v : BlockVersion) :
  existsb Clean vs = false → vs !! i = Some v → Clean v = false.
Proof.
  revert i. induction vs as [|u vs IH]; intros i Hex Hi; [done|].
  simpl in Hex. apply orb_false_iff in Hex as [Hu Hvs].
  destruct i as [|i]; simpl in Hi.
  - by inversion Hi; subst.
  - by eapply IH.
Qed.

Lemma latest_clean_from_dirty (vs : list BlockVersion) (n : nat) :
  existsb Clean vs = false → latest_clean_from vs n = None.
Proof.
  intros Hex. induction n as [|n IH]; [done|]. simpl.
  destruct (vs !! n) as [v|] eqn:Hn; [|done].
  by rewrite (existsb_Clean_false vs n v Hex Hn).
Qed.

Lemma latest_clean_from_last (vs : list BlockVersion) (v : BlockVersion) :
  Clean v = true →
  latest_clean_from (vs ++ [v]) (length (vs ++ [v])) = Some v.
Proof.
  intros Hv. rewrite length_app, Nat.add_1_r. simpl.
  rewrite lookup_app_r, Nat.sub_diag by lia. simpl. by rewrite Hv.
Qed.

Lemma deref_insert (c : Chain) (bs : gmap string loc) (l : loc) (b : Block) :
  deref (set_blocks c bs (<[l := b]> (heap c))) l = b.
Proof. unfold deref. simpl. by rewrite lookup_insert_eq. Qed.

(** What a successful [Write] leaves behind. *)
Lemma Write_success (c c' : Chain) (blockID : string) (data metadata : bytes)
    (now : Z) (g : option goroutine) :
  Write c blockID data metadata now = (c', None, g) →
  ∃ l, blocks c' !! blockID = Some l ∧
       g = Some (MarkClean l (nextVersion_of (versions_of c blockID))) ∧
       versions_of c' blockID =
         versions_of c blockID ++
         [mkBlockVersion (nextVersion_of (versions_of c blockID)) data metadata now false].
Proof.
  unfold Write, versions_of. destruct (head c) as [h|]; [|done].
  destruct (blocks c !! blockID) as [l|] eqn:Hl; intros [= <- <-].
  - exists l. simpl. rewrite Hl. split; [done|]. split; [done|].
    by rewrite deref_insert.
  - exists (fresh (dom (heap c))). simpl. rewrite lookup_insert_eq.
    split; [done|]. split; [done|]. by rewrite deref_insert.
Qed.

Lemma Write_fails_iff (c : Chain) (blockID : string) (data metadata : bytes) (now : Z) :
  head c = None ↔ is_Some (Write c blockID data metadata now).1.2.
Proof.
  unfold Write. destruct (head c) as [h|]; simpl.
  - destruct (blocks c !! blockID); simpl; split; intros H; try done;
      by destruct H.
  - split; eauto.
Qed.

End chain_facts.

Section chain_claims.

Import craq ledger scenario.

(** C1, counterexample.  After two writes of [abc123] and before any
    goroutine ran, the latest version is dirty and none is clean, yet
    [Read] reports no error. *)
Lemma C1_read_not_ready_counterexample :
  ¬ spec.read_reports_not_ready chain3 "abc123".
Proof.
  intros H. unfold spec.read_reports_not_ready in H.
  destruct H as [e He].
  - eexists. split; [vm_compute; reflexivity | reflexivity].
  - vm_compute. reflexivity.
  - vm_compute in He. discriminate He.
Qed.

(** On that chain [Read] hands out the data of version 1 while the
    latest version is 2. *)
Example Read_two_dirty_versions :
  (Read chain3 "abc123").1.1 = str "old" ∧
  Version <$> latest_version chain3 "abc123" = Some 2.
Proof. split; vm_compute; reflexivity. Qed.

(** C1, as amended.  When the latest version of a block is dirty and the
    block has no clean version, [Read] returns no error but the data and
    metadata of the oldest version. *)
Theorem C1_read_all_dirty_returns_oldest (c : Chain) (blockID : string)
    (v : BlockVersion) :
  latest_version c blockID = Some v →
  Clean v = false →
  has_clean c blockID = false →
  ∃ oldest, oldest_version c blockID = Some oldest ∧
            Read c blockID = (Data oldest, Metadata oldest, None).
Proof.
  unfold latest_version, oldest_version, has_clean, versions_of, Read.
  destruct (blocks c !! blockID) as [l|]; [|done].
  destruct (Versions (deref c l)) as [|oldest vs] eqn:Hvs; [done|].
  intros _ _ Hex. exists oldest. split; [done|].
  by rewrite latest_clean_from_dirty.
Qed.

Lemma C1_read_all_dirty_returns_oldest_witness :
  latest_version chain3 "abc123" =
    Some (mkBlockVersion 2 (str "new") (str "{}") 201 false) ∧
  has_clean chain3 "abc123" = false ∧
  ∃ oldest, oldest_version chain3 "abc123" = Some oldest ∧
            Read chain3 "abc123" = (Data oldest, Metadata oldest, None).
Proof.
  split; [vm_compute; reflexivity|]. split; [vm_compute; reflexivity|].
  apply (C1_read_all_dirty_returns_oldest chain3 "abc123"
           (mkBlockVersion 2 (str "new") (str "{}") 201 false));
    vm_compute; reflexivity.
Defined.

(** C2, counterexample.  [Write] on the one-node chain returns success
    and the version it appended is dirty. *)
Lemma C2_write_returns_clean_counterexample :
  ¬ spec.write_returns_clean chain1 "abc123" (str "hello") (str "{}") 7.
Proof.
  intros H. edestruct H as (v & Hv & Hclean); [vm_compute; reflexivity|].
  vm_compute in Hv. injection Hv as <-. discriminate Hclean.
Qed.

(** C2, as amended.  When [Write] returns success the version it
    appended is the latest of the block, holds the data and metadata
    written, and is dirty; marking it clean is left to the goroutine the
    call started. *)
Theorem C2_write_returns_dirty (c c' : Chain) (blockID : string)
    (data metadata : bytes) (now : Z) (g : option goroutine) :
  Write c blockID data metadata now = (c', None, g) →
  ∃ l v, blocks c' !! blockID = Some l ∧
         latest_version c' blockID = Some v ∧
         Data v = data ∧ Metadata v = metadata ∧ Clean v = false ∧
         g = Some (MarkClean l (Version v)).
Proof.
  intros (l & Hl & Hg & Hvs)%Write_success.
  exists l. eexists. unfold latest_version. rewrite Hvs, last_snoc.
  by repeat split.
Qed.

Lemma C2_write_returns_dirty_witness :
  ∃ c' g, Write chain1 "abc123" (str "hello") (str "{}") 7 = (c', None, g) ∧
  ∃ l v, blocks c' !! "abc123" = Some l ∧
         latest_version c' "abc123" = Some v ∧
         Data v = str "hello" ∧ Metadata v = str "{}" ∧ Clean v = false ∧
         g = Some (MarkClean l (Version v)).
Proof.
  eexists _, _. split; [vm_compute; reflexivity|].
  eapply (C2_write_returns_dirty chain1 _ "abc123" (str "hello") (str "{}") 7).
  vm_compute. reflexivity.
Defined.

(** C8, counterexample.  [Initialize] succeeds on the one-node chain of
    length 3, and [AddNode] then still succeeds. *)
Lemma C8_static_after_initialize_counterexample :
  ¬ spec.static_after_initialize chain1 "node2" "127.0.0.1:9001".
Proof.
  intros H. edestruct H as [e He]; [vm_compute; reflexivity|].
  vm_compute in He. discriminate He.
Qed.

(** C8, as amended.  [Initialize] leaves the chain as it is, and a later
    [AddNode] fails exactly when the chain already has its configured
    length; below that length it succeeds and appends the node as the
    new tail. *)
Theorem C8_add_node_after_initialize (c c' : Chain) (id address : string) :
  Initialize c = (c', None) →
  tail_linked c = true →
  c' = c ∧
  if len (nodes c) >=? chainLength c then
    AddNode c' id address =
      Some (c', Some (errors_New "chain is already at maximum length"))
  else
    ∃ c'', AddNode c' id address = Some (c'', None) ∧
           length (nodes c'') = S (length (nodes c)) ∧
           last (nodes c'') = Some (mkNode id address false true None (tail c)) ∧
           tail c'' = Some (length (nodes c)).
Proof.
  unfold Initialize, tail_linked, AddNode.
  destruct (len (nodes c) =? 0) eqn:Hlen; [done|].
  intros [= <-] Htail. split; [done|].
  destruct (len (nodes c) >=? chainLength c); [done|].
  rewrite Hlen.
  destruct (tail c) as [t|].
  - apply bool_decide_eq_true in Htail as [n Hn]. simpl. rewrite Hn. simpl.
    eexists. split; [done|]. simpl.
    rewrite length_app, length_alter, last_snoc. simpl.
    split; [lia|done].
  - apply bool_decide_eq_true in Htail. rewrite Htail in Hlen. done.
Qed.

Lemma C8_add_node_after_initialize_witness :
  Initialize chain1 = (chain1, None) ∧
  tail_linked chain1 = true ∧
  ∃ c'', AddNode chain1 "node2" "127.0.0.1:9001" = Some (c'', None) ∧
         length (nodes c'') = 2%nat ∧
         last (nodes c'') =
           Some (mkNode "node2" "127.0.0.1:9001" false true None (Some 0%nat)) ∧
         tail c'' = Some 1%nat.
Proof.
  split; [vm_compute; reflexivity|]. split; [vm_compute; reflexivity|].
  apply (C8_add_node_after_initialize chain1 chain1 "node2" "127.0.0.1:9001");
    vm_compute; reflexivity.
Defined.

End chain_claims.

(** ** Paths and the file system *)

Section path_facts.

Import fsys.
Local Open Scope string_scope.

Lemma append_cons (a : ascii) (s t : string) : String a s ++ t = String a (s ++ t).
Proof. reflexivity. Qed.

Lemma append_empty_l (t : string) : "" ++ t = t.
Proof. reflexivity. Qed.

Lemma length_append (s t : string) :
  String.length (s ++ t) = (String.length s + String.length t)%nat.
Proof.
  induction s as [|a s IH]; [done|].
  rewrite append_cons. simpl. by rewrite IH.
Qed.

Lemma append_suffix_neq (s t : string) : t ≠ "" → s ≠ s ++ t.
Proof.
  intros Ht Heq. apply (f_equal String.length) in Heq.
  rewrite length_append in Heq. destruct t; [done|]. simpl in Heq. lia.
Qed.

(** A string without separator is its own single path element. *)
Definition slash_free (e : string) : Prop := path_elems e = [e].

Lemma path_elems_nonempty (s : string) : path_elems s ≠ [].
Proof.
  destruct s as [|a s]; [done|]. simpl.
  case_bool_decide; [done|]. by destruct (path_elems s).
Qed.

Lemma slash_free_cons (a : ascii) (e : string) :
  slash_free (String a e) → a ≠ slash ∧ slash_free e.
Proof.
  unfold slash_free. simpl. case_bool_decide as Ha; [done|].
  intros H. split; [done|].
  destruct (path_elems e) as [|h t] eqn:He; [by apply path_elems_nonempty in He|].
  by injection H as -> ->.
Qed.

Lemma path_elems_slash_free (s : string) : Forall slash_free (path_elems s).
Proof.
  induction s as [|a s IH]; simpl.
  - by constructor.
  - case_bool_decide as Ha; [by constructor|].
    destruct (path_elems s) as [|h t] eqn:Hs; [by apply path_elems_nonempty in Hs|].
    inversion IH as [|?? Hh Ht]; subst. constructor; [|done].
    unfold slash_free in *. simpl. rewrite bool_decide_eq_false_2 by done.
    by rewrite Hh.
Qed.

Lemma path_elems_cons_slash (e r : string) :
  slash_free e → path_elems (e ++ String slash r) = e :: path_elems r.
Proof.
  induction e as [|a e IH]; intros He.
  - rewrite append_empty_l. reflexivity.
  - apply slash_free_cons in He as [Ha He].
    rewrite append_cons. simpl. rewrite bool_decide_eq_false_2 by done.
    by rewrite IH.
Qed.

Lemma path_elems_join (l : list string) :
  l ≠ [] → Forall slash_free l → path_elems (join_elems l) = l.
Proof.
  induction l as [|e l IH]; [done|]. intros _ Hall.
  inversion Hall as [|?? He Hl]; subst.
  destruct l as [|e' l]; [done|].
  change (join_elems (e :: e' :: l)) with (e ++ String slash (join_elems (e' :: l))).
  rewrite path_elems_cons_slash by done. by rewrite IH.
Qed.

(** Appending a separator-free suffix to a path changes its last element. *)
Lemma path_elems_suffix (s t : string) :
  slash_free t →
  ∃ es e, path_elems s = (es ++ [e])%list ∧
          path_elems (s ++ t) = (es ++ [(e ++ t)%string])%list.
Proof.
  intros Ht. induction s as [|a s (es & e & Hs & Hst)].
  - exists [], "". by rewrite append_empty_l.
  - rewrite append_cons. simpl. rewrite Hs, Hst. case_bool_decide.
    + by exists ("" :: es), e.
    + destruct es as [|h es]; simpl.
      * by exists [], (String a e).
      * by exists (String a h :: es), e.
Qed.

Lemma is_rooted_suffix (s t : string) :
  is_rooted t = false → is_rooted (s ++ t) = is_rooted s.
Proof. by destruct s. Qed.

(** The elements [path.Clean] keeps. *)
Definition kept (e : string) : Prop := e ≠ "" ∧ e ≠ "." ∧ slash_free e.

Lemma clean_step_kept (rooted : bool) (stack : list string) (e : string) :
  slash_free e → Forall kept stack → Forall kept (clean_step rooted stack e).
Proof.
  intros He Hst. unfold clean_step.
  repeat case_bool_decide; simpl; try done.
  - destruct stack as [|top rest].
    + destruct rooted; [done|]. constructor; [|done]. by subst.
    + inversion Hst; subst. case_bool_decide; [|done].
      constructor; [|done]. by repeat split.
  - by constructor.
Qed.

Lemma clean_step_cases (rooted : bool) (stack : list string) (e : string) :
  clean_step rooted stack e = stack ∨
  clean_step rooted stack e = e :: stack ∨
  ∃ top rest, stack = top :: rest ∧ clean_step rooted stack e = rest.
Proof.
  unfold clean_step.
  destruct (bool_decide (e = "") || bool_decide (e = ".")); [by left|].
  destruct (bool_decide (e = "..")); [|by right; left].
  destruct stack as [|top rest].
  - destruct rooted; [by left | by right; left].
  - destruct (bool_decide (top = "..")); [by right; left|].
    right; right. by exists top, rest.
Qed.

Lemma clean_fold_kept (rooted : bool) (es stack : list string) :
  Forall slash_free es → Forall kept stack →
  Forall kept (fold_left (clean_step rooted) es stack).
Proof.
  revert stack. induction es as [|e es IH]; intros stack Hes Hst; [done|].
  inversion Hes; subst. simpl. apply IH; [done|]. by apply clean_step_kept.
Qed.

Lemma join_elems_empty (l : list string) :
  Forall kept l → join_elems l = "" → l = [].
Proof.
  destruct l as [|e l]; [done|]. intros Hall Hj.
  inversion Hall as [|?? [He _] _]; subst.
  destruct l as [|e' l]; [done|].
  change (join_elems (e :: e' :: l)) with (e ++ String slash (join_elems (e' :: l))) in Hj.
  apply (f_equal String.length) in Hj. rewrite length_append in Hj.
  simpl in Hj. lia.
Qed.

Lemma join_elems_inj (l1 l2 : list string) :
  Forall kept l1 → Forall kept l2 → join_elems l1 = join_elems l2 → l1 = l2.
Proof.
  intros H1 H2 Hj.
  destruct (decide (l1 = [])) as [->|Hn1].
  { symmetry. apply join_elems_empty; [done|]. by rewrite <- Hj. }
  destruct (decide (l2 = [])) as [->|Hn2].
  { by apply join_elems_empty. }
  rewrite <- (path_elems_join l1), <- (path_elems_join l2), Hj; try done.
  - eapply Forall_impl; [exact H2|]. by intros ? (_ & _ & ?).
  - eapply Forall_impl; [exact H1|]. by intros ? (_ & _ & ?).
Qed.

(** The text [path.Clean] builds from the elements it kept. *)
Definition render (rooted : bool) (l : list string) : string :=
  if rooted then "/" ++ join_elems l
  else if bool_decide (join_elems l = "") then "." else join_elems l.

Lemma render_inj (rooted : bool) (l1 l2 : list string) :
  Forall kept l1 → Forall kept l2 → render rooted l1 = render rooted l2 → l1 = l2.
Proof.
  intros H1 H2. unfold render. destruct rooted.
  - rewrite !append_cons, !append_empty_l. intros [= Hj].
    by apply join_elems_inj.
  - assert (∀ l, Forall kept l → join_elems l ≠ ".") as Hdot.
    { intros l Hl Hj. assert (l ≠ []) as Hn by (by intros ->).
      pose proof (path_elems_join l Hn) as Hp. rewrite Hj in Hp. simpl in Hp.
      rewrite <- Hp in Hl.
      - inversion Hl as [|?? (_ & Hk & _) _]; subst. done.
      - eapply Forall_impl; [exact Hl|]. by intros ? (_ & _ & ?). }
    repeat case_bool_decide; intros Hj.
    + apply join_elems_empty in H; [|done]. apply join_elems_empty in H0; [|done].
      by subst.
    + symmetry in Hj. by apply Hdot in Hj.
    + by apply Hdot in Hj.
    + by apply join_elems_inj.
Qed.

Lemma filepath_Clean_render (path : string) :
  filepath_Clean path =
    render (is_rooted path)
           (rev (fold_left (clean_step (is_rooted path)) (path_elems path) [])).
Proof. reflexivity. Qed.

(** A path and the path with [.meta] appended never name the same file. *)
Lemma filepath_Clean_meta_neq (p : string) :
  filepath_Clean (p ++ ".meta") ≠ filepath_Clean p.
Proof.
  rewrite !filepath_Clean_render, is_rooted_suffix by done.
  destruct (path_elems_suffix p ".meta" eq_refl) as (es & e & Hp & Hpm).
  rewrite Hp, Hpm, !fold_left_app. simpl.
  set (rooted := is_rooted p).
  set (stack := fold_left (clean_step rooted) es []).
  assert (Forall kept stack) as Hstack.
  { apply clean_fold_kept; [|done].
    pose proof (path_elems_slash_free p) as Hall. rewrite Hp in Hall.
    by apply Forall_app in Hall as [? _]. }
  assert (slash_free e) as He.
  { pose proof (path_elems_slash_free p) as Hall. rewrite Hp in Hall.
    apply Forall_app in Hall as [_ Hall]. by inversion Hall. }
  assert (slash_free (e ++ ".meta")) as Hem.
  { pose proof (path_elems_slash_free (p ++ ".meta")) as Hall. rewrite Hpm in Hall.
    apply Forall_app in Hall as [_ Hall]. by inversion Hall. }
  assert (∀ s, String.length s < 5 → e ++ ".meta" ≠ s)%nat as Hlen.
  { intros s Hs Heq. apply (f_equal String.length) in Heq.
    rewrite length_append in Heq. simpl in Heq. lia. }
  assert (clean_step rooted stack (e ++ ".meta") = (e ++ ".meta") :: stack) as ->.
  { unfold clean_step.
    rewrite !bool_decide_eq_false_2; [done|..]; apply Hlen; simpl; lia. }
  intros Heq. apply render_inj in Heq.
  - apply (f_equal (@rev string)) in Heq. rewrite !rev_involutive in Heq.
    destruct (clean_step_cases rooted stack e) as [Hc|[Hc|(top & rest & -> & Hc)]];
      rewrite Hc in Heq.
    + apply (f_equal length) in Heq. simpl in Heq. lia.
    + injection Heq as Heq. symmetry in Heq.
      by apply (append_suffix_neq e ".meta").
    + apply (f_equal length) in Heq. simpl in Heq. lia.
  - apply Forall_rev. constructor; [|done]. repeat split; [..|done]; apply Hlen; simpl; lia.
  - apply Forall_rev. by apply clean_step_kept.
Qed.

End path_facts.

Section fs_facts.

Import fsys.

Lemma is_file_lookup (fs : FS) (p : string) :
  is_file fs p = true ↔ is_Some (files fs !! p).
Proof. unfold is_file. apply bool_decide_eq_true. Qed.

Lemma WriteFile_success (fs fs' : FS) (path : string) (data : bytes) :
  ioutil_WriteFile fs path data = (fs', None) →
  fs' = mkFS (<[filepath_Clean path := bytes_contents data]> (files fs)) (dirs fs) ∧
  is_dir fs (filepath_Clean path) = false.
Proof.
  unfold ioutil_WriteFile.
  destruct (is_dir fs (filepath_Clean path)); [done|].
  destruct (_ || _); [|done]. by intros [= <-].
Qed.

Lemma WriteFile_failure (fs fs' : FS) (path : string) (data : bytes) (e : error) :
  ioutil_WriteFile fs path data = (fs', Some e) → fs' = fs.
Proof.
  unfold ioutil_WriteFile.
  destruct (is_dir fs (filepath_Clean path)); [by intros [= <-]|].
  destruct (_ || _); [done|]. by intros [= <-].
Qed.

Lemma ReadFile_file (fs : FS) (path : string) (contents : list byte) :
  files fs !! filepath_Clean path = Some contents →
  ioutil_ReadFile fs path = (Some contents, None).
Proof. unfold ioutil_ReadFile. by intros ->. Qed.

Lemma Stat_file (fs : FS) (path : string) (contents : list byte) :
  files fs !! filepath_Clean path = Some contents → os_Stat fs path = None.
Proof.
  intros H. unfold os_Stat.
  assert (is_file fs (filepath_Clean path) = true) as ->; [|done].
  apply is_file_lookup. by rewrite H.
Qed.

Lemma Remove_file (fs : FS) (path : string) (contents : list byte) :
  files fs !! filepath_Clean path = Some contents →
  os_Remove fs path = (mkFS (delete (filepath_Clean path) (files fs)) (dirs fs), None).
Proof.
  intros H. unfold os_Remove.
  assert (is_file fs (filepath_Clean path) = true) as ->; [|done].
  apply is_file_lookup. by rewrite H.
Qed.

End fs_facts.

(** ** The local block store *)

Section storage_facts.

Import fsys storage.
Local Open Scope string_scope.

Lemma pad_id_length (blockID : string) : (2 ≤ String.length (pad_id blockID))%nat.
Proof.
  unfold pad_id. destruct (String.length blockID <? 2)%nat eqn:Hlen.
  - rewrite length_append. simpl. lia.
  - apply Nat.ltb_ge in Hlen. lia.
Qed.

Lemma pad_id_short (blockID : string) :
  (String.length blockID < 2)%nat → pad_id blockID = "00" ++ blockID.
Proof. intros H%Nat.ltb_lt. unfold pad_id. by rewrite H. Qed.

Lemma pad_id_padded (blockID : string) : pad_id ("00" ++ blockID) = "00" ++ blockID.
Proof. reflexivity. Qed.

Lemma getBlockPath_total (s : LocalStorage) (blockID : string) :
  getBlockPath s blockID =
    Some (filepath_Join [dataPath s; substring 0 2 (pad_id blockID); pad_id blockID]).
Proof.
  unfold getBlockPath, go_slice_to.
  pose proof (pad_id_length blockID) as Hlen. apply Nat.leb_le in Hlen.
  by rewrite Hlen.
Qed.

Lemma getMetadataPath_total (s : LocalStorage) (blockID : string) :
  getMetadataPath s blockID =
    Some (filepath_Join [dataPath s; substring 0 2 (pad_id blockID); pad_id blockID]
          ++ ".meta").
Proof. unfold getMetadataPath. by rewrite getBlockPath_total. Qed.

Lemma getBlockPath_set_cache (s : LocalStorage) (m : gmap string bytes) (blockID : string) :
  getBlockPath (set_cache s m) blockID = getBlockPath s blockID.
Proof. reflexivity. Qed.

(** What a successful [WriteBlock] leaves on disk and in the cache. *)
Lemma WriteBlock_success (s s' : LocalStorage) (fs fs' : FS) (blockID : string)
    (data metadata : bytes) :
  WriteBlock s fs blockID data metadata = Some (s', fs', None) →
  ∃ blockPath,
    getBlockPath s blockID = Some blockPath ∧
    s' = set_cache s (<[blockID := data]> (cache s)) ∧
    files fs' !! filepath_Clean blockPath = Some (bytes_contents data) ∧
    (∀ m, metadata = Some m →
          files fs' !! filepath_Clean (blockPath ++ ".meta") = Some m).
Proof.
  unfold WriteBlock, getMetadataPath. rewrite getBlockPath_total.
  generalize (filepath_Join [dataPath s; substring 0 2 (pad_id blockID); pad_id blockID]).
  intros blockPath. simpl.
  destruct (ioutil_WriteFile fs blockPath data) as [fs1 [e|]] eqn:Hw1; [done|].
  apply WriteFile_success in Hw1 as [-> _].
  destruct metadata as [m|]; simpl.
  - destruct (ioutil_WriteFile _ (blockPath ++ ".meta") (Some m)) as [fs2 [e|]] eqn:Hw2;
      [done|].
    apply WriteFile_success in Hw2 as [-> _]. simpl.
    intros [= <- <-]. exists blockPath. repeat split; simpl.
    + rewrite lookup_insert_ne by apply filepath_Clean_meta_neq.
      by rewrite lookup_insert_eq.
    + intros ? [= <-]. by rewrite lookup_insert_eq.
  - intros [= <- <-]. exists blockPath. repeat split; simpl.
    + by rewrite lookup_insert_eq.
    + done.
Qed.

End storage_facts.

Section storage_claims.

Import fsys storage scenario.
Local Open Scope string_scope.

Lemma append_prefix_neq (t s : string) : t ≠ "" → s ≠ t ++ s.
Proof.
  intros Ht Heq. apply (f_equal String.length) in Heq.
  rewrite length_append in Heq. destruct t; [done|]. simpl in Heq. lia.
Qed.

(** C9.  [getBlockPath] pads an id shorter than two bytes with [00]
    before it slices the shard prefix, so the padded id always has the
    two bytes the slice takes and the call returns a path for every id,
    ids of length 0 and 1 included; the shard of a short id is [00],
    and [a] has the shard and the path of [00a]. *)
Theorem C9_getBlockPath_slice_in_bounds (s : LocalStorage) (blockID : string) :
  (2 ≤ String.length (pad_id blockID))%nat ∧
  getBlockPath s blockID =
    Some (filepath_Join [dataPath s; substring 0 2 (pad_id blockID); pad_id blockID]) ∧
  shard_of blockID =
    Some (if (String.length blockID <? 2)%nat then "00" else substring 0 2 blockID) ∧
  shard_of "a" = shard_of "00a" ∧
  getBlockPath s "a" = getBlockPath s "00a".
Proof.
  split; [apply pad_id_length|]. split; [apply getBlockPath_total|].
  split; [|done].
  unfold shard_of, go_slice_to.
  pose proof (pad_id_length blockID) as Hlen. apply Nat.leb_le in Hlen.
  rewrite Hlen. unfold pad_id.
  destruct (String.length blockID <? 2)%nat; [|done].
  by destruct blockID.
Qed.

(** C10.  An id shorter than two bytes and the same id behind [00] are
    different ids with the same data-file and sidecar paths, so that a
    successful [WriteBlock] for either of them leaves its data in the
    file the other one is read from. *)
Theorem C10_short_id_shares_files_with_padded_id (s : LocalStorage) (blockID : string) :
  (String.length blockID < 2)%nat →
  blockID ≠ "00" ++ blockID ∧
  getBlockPath s blockID = getBlockPath s ("00" ++ blockID) ∧
  getMetadataPath s blockID = getMetadataPath s ("00" ++ blockID) ∧
  ∀ written other, written ∈ [blockID; "00" ++ blockID] →
                   other ∈ [blockID; "00" ++ blockID] →
    ∀ fs data metadata s' fs',
      WriteBlock s fs written data metadata = Some (s', fs', None) →
      ∃ blockPath, getBlockPath s other = Some blockPath ∧
                   ioutil_ReadFile fs' blockPath = (Some (bytes_contents data), None).
Proof.
  intros Hshort.
  assert (getBlockPath s blockID = getBlockPath s ("00" ++ blockID)) as Hpath.
  { by rewrite !getBlockPath_total, pad_id_padded, (pad_id_short blockID). }
  split; [by apply append_prefix_neq|]. split; [done|].
  split; [unfold getMetadataPath; by rewrite Hpath|].
  intros written other Hw Ho fs data metadata s' fs' Hwrite.
  apply WriteBlock_success in Hwrite as (blockPath & Hbp & _ & Hfile & _).
  exists blockPath. split; [|by apply ReadFile_file].
  rewrite <- Hbp.
  set_unfold. destruct Hw as [->|[->|[]]], Ho as [->|[->|[]]]; by rewrite ?Hpath.
Qed.

Lemma C10_short_id_shares_files_with_padded_id_witness :
  (String.length "a" < 2)%nat ∧
  "a" ≠ "00a" ∧
  getBlockPath store0 "a" = getBlockPath store0 "00a" ∧
  getMetadataPath store0 "a" = getMetadataPath store0 "00a" ∧
  ∀ written other, written ∈ ["a"; "00a"] → other ∈ ["a"; "00a"] →
    ∀ fs data metadata s' fs',
      WriteBlock store0 fs written data metadata = Some (s', fs', None) →
      ∃ blockPath, getBlockPath store0 other = Some blockPath ∧
                   ioutil_ReadFile fs' blockPath = (Some (bytes_contents data), None).
Proof.
  split; [simpl; lia|].
  apply (C10_short_id_shares_files_with_padded_id store0 "a"). simpl. lia.
Defined.

(** On the started disk, a write of [00a] replaces the bytes written
    for [a]. *)
Example write_00a_overwrites_a :
  ∃ s1 fs1 s2 fs2,
    WriteBlock store0 disk1 "a" (str "first") (str "{}") = Some (s1, fs1, None) ∧
    WriteBlock s1 fs1 "00a" (str "second") (str "{}") = Some (s2, fs2, None) ∧
    ioutil_ReadFile fs1 "/data/00/00a" = (str "first", None) ∧
    ioutil_ReadFile fs2 "/data/00/00a" = (str "second", None) ∧
    getBlockPath s2 "a" = Some "/data/00/00a".
Proof. eexists _, _, _, _. repeat split; vm_compute; reflexivity. Qed.

(** C6.  When the data file of a block was written and the write of the
    sidecar, for metadata that is not nil, fails, [WriteBlock] removes
    the data file and then returns the error: no file is left at the
    data path. *)
Theorem C6_failed_sidecar_write_removes_data_file (s : LocalStorage) (fs fs1 fs2 : FS)
    (blockID blockPath metaPath : string) (data : bytes) (metadata : list byte)
    (e : error) :
  getBlockPath s blockID = Some blockPath →
  getMetadataPath s blockID = Some metaPath →
  ioutil_WriteFile fs blockPath data = (fs1, None) →
  ioutil_WriteFile fs1 metaPath (Some metadata) = (fs2, Some e) →
  ∃ fs', WriteBlock s fs blockID data (Some metadata) =
           Some (s, fs', Some (Errorf_w "failed to write block metadata" e)) ∧
         os_Remove fs2 blockPath = (fs', None) ∧
         files fs' !! filepath_Clean blockPath = None ∧
         is_file fs' (filepath_Clean blockPath) = false.
Proof.
  intros Hbp Hmp Hw1 Hw2. unfold WriteBlock. rewrite Hbp, Hmp. simpl.
  rewrite Hw1. simpl. rewrite Hw2. simpl.
  apply WriteFile_failure in Hw2 as ->.
  apply WriteFile_success in Hw1 as [-> _].
  erewrite Remove_file by (simpl; apply lookup_insert_eq).
  eexists. split; [done|]. split; [done|]. simpl.
  assert (delete (filepath_Clean blockPath)
            (<[filepath_Clean blockPath := bytes_contents data]> (files fs))
            !! filepath_Clean blockPath = None) as Hgone by apply lookup_delete_eq.
  split; [done|]. unfold is_file. simpl. rewrite Hgone.
  apply bool_decide_eq_false. by intros [? ?].
Qed.

Lemma C6_failed_sidecar_write_removes_data_file_witness :
  ∃ fs', WriteBlock store0 blocked_disk "abc123" (str "hello")
           (Some (list_byte_of_string "{}")) =
           Some (store0, fs',
                 Some (Errorf_w "failed to write block metadata"
                         (PathError "open" "/data/ab/abc123.meta" EISDIR))) ∧
         os_Remove (ioutil_WriteFile blocked_disk "/data/ab/abc123" (str "hello")).1
                   "/data/ab/abc123" = (fs', None) ∧
         files fs' !! filepath_Clean "/data/ab/abc123" = None ∧
         is_file fs' (filepath_Clean "/data/ab/abc123") = false.
Proof.
  apply (C6_failed_sidecar_write_removes_data_file store0 blocked_disk
           (ioutil_WriteFile blocked_disk "/data/ab/abc123" (str "hello")).1
           (ioutil_WriteFile blocked_disk "/data/ab/abc123" (str "hello")).1
           "abc123" "/data/ab/abc123" "/data/ab/abc123.meta"
           (str "hello") (list_byte_of_string "{}")
           (PathError "open" "/data/ab/abc123.meta" EISDIR));
    vm_compute; reflexivity.
Defined.

End storage_claims.

(** ** The block service *)

Section service_facts.

Import craq ledger fsys.

Lemma json_Marshal_ok (m : storage.BlockMetadata) :
  ∃ text, storage.json_Marshal m = (Some text, None).
Proof. by eexists. Qed.

Lemma Delete_failure (c c' : Chain) (blockID : string) (e : error) :
  Delete c blockID = (c', Some e) → c' = c.
Proof. unfold Delete. destruct (blocks c !! blockID); [done|]. by intros [= <-]. Qed.

(** The two legs of a successful [WriteBlock]. *)
Lemma service_WriteBlock_success (s s' : block.Service) (fs fs' : FS)
    (blockID : string) (data : bytes) (now chain_now : Z) (g : option goroutine) :
  block.WriteBlock s fs blockID data now chain_now = Some (s', fs', None, g) →
  ∃ text,
    storage.json_Marshal (block.WriteBlock_metadata data now) = (Some text, None) ∧
    match block.craqChain s with
    | Some c =>
      ∃ c', Write c blockID data (Some text) chain_now = (c', None, g) ∧
            block.craqChain s' = Some c'
    | None => block.craqChain s' = None ∧ g = None
    end ∧
    storage.WriteBlock (block.localStorage s) fs blockID data (Some text) =
      Some (block.localStorage s', fs', None).
Proof.
  unfold block.WriteBlock.
  destruct (json_Marshal_ok (block.WriteBlock_metadata data now)) as [text ->].
  intros H. exists text. split; [done|].
  destruct (block.craqChain s) as [c|].
  - destruct (Write c blockID data (Some text) chain_now) as [[c' [e|]] g'];
      simpl in H; [done|].
    destruct (storage.WriteBlock _ _ _ _ _) as [[[ls fs1] [e|]]|]; simpl in H;
      try done.
    injection H as <- <- <-. split; [|done]. by exists c'.
  - simpl in H.
    destruct (storage.WriteBlock _ _ _ _ _) as [[[ls fs1] [e|]]|]; simpl in H;
      try done.
    by injection H as <- <- <-.
Qed.

(** A block written to the local store is read back from its cache
    entry and its sidecar. *)
Lemma storage_ReadBlock_after_WriteBlock (ls ls' : storage.LocalStorage) (fs fs' : FS)
    (blockID : string) (data : bytes) (text : list byte) :
  storage.WriteBlock ls fs blockID data (Some text) = Some (ls', fs', None) →
  storage.ReadBlock ls' fs' blockID = Some (ls', data, Some text, None).
Proof.
  intros (blockPath & Hbp & -> & _ & Hmeta)%WriteBlock_success.
  specialize (Hmeta text eq_refl).
  unfold storage.ReadBlock, storage.ReadBlockMetadata, storage.getMetadataPath.
  simpl. rewrite lookup_insert_eq, getBlockPath_set_cache, Hbp. simpl.
  by rewrite (Stat_file _ _ _ Hmeta), (ReadFile_file _ _ _ Hmeta).
Qed.

End service_facts.

Section delete_claims.

Import craq ledger fsys scenario.

(** C5, counterexample.  A node restarted over a disk that holds block
    [abc123]: the chain does not know the block, its delete fails, and
    the files of the block are still there when [DeleteBlock] returns. *)
Lemma C5_delete_still_deletes_locally_counterexample :
  ¬ spec.delete_still_deletes_locally service1 disk2 "abc123".
Proof.
  intros H.
  destruct (H chain1) as (s' & fs' & e & Hdel & bp & mp & Hbp & _ & Hfile & _).
  - reflexivity.
  - vm_compute. eauto.
  - vm_compute in Hdel. injection Hdel as <- <- <-.
    vm_compute in Hbp. injection Hbp as <-.
    vm_compute in Hfile. discriminate Hfile.
Qed.

(** C5, as amended.  With a chain configured, [DeleteBlock] deletes
    through the chain first.  When that delete fails, its error is
    returned and the local deletion is skipped: the service, its local
    store and the disk are as before.  When it succeeds, the local
    deletion runs next and its error, if any, is returned. *)
Theorem C5_chain_delete_failure_skips_local_delete (s : block.Service) (fs : FS)
    (blockID : string) (c : Chain) :
  block.craqChain s = Some c →
  (∀ e, (Delete c blockID).2 = Some e →
     block.DeleteBlock s fs blockID =
       Some (s, fs, Some (Errorf_w "failed to delete block from replication chain" e))) ∧
  ((Delete c blockID).2 = None →
     block.DeleteBlock s fs blockID =
       '(ls, fs', err) ← storage.DeleteBlock (block.localStorage s) fs blockID;
       Some (block.mkService ls (Some (Delete c blockID).1), fs',
             wrap_error "failed to delete block from local storage" err)).
Proof.
  intros Hc. unfold block.DeleteBlock. rewrite Hc.
  destruct (Delete c blockID) as [c' err] eqn:Hdel. simpl. split.
  - intros e ->. apply Delete_failure in Hdel as ->.
    destruct s; simpl in *; by subst.
  - by intros ->.
Qed.

Lemma C5_chain_delete_failure_skips_local_delete_witness :
  (∀ e, (Delete chain1 "abc123").2 = Some e →
     block.DeleteBlock service1 disk2 "abc123" =
       Some (service1, disk2,
             Some (Errorf_w "failed to delete block from replication chain" e))) ∧
  ((Delete chain1 "abc123").2 = None →
     block.DeleteBlock service1 disk2 "abc123" =
       '(ls, fs', err) ← storage.DeleteBlock (block.localStorage service1) disk2 "abc123";
       Some (block.mkService ls (Some (Delete chain1 "abc123").1), fs',
             wrap_error "failed to delete block from local storage" err)).
Proof.
  apply (C5_chain_delete_failure_skips_local_delete service1 disk2 "abc123" chain1).
  reflexivity.
Defined.

(** The delete of the restarted node, evaluated. *)
Example DeleteBlock_after_restart :
  block.DeleteBlock service1 disk2 "abc123" =
    Some (service1, disk2,
          Some (Errorf_w "failed to delete block from replication chain"
                  (errors_New "block abc123 not found"))) ∧
  is_file disk2 "/data/ab/abc123" = true.
Proof. split; vm_compute; reflexivity. Qed.

End delete_claims.

Section write_facts.

Import craq ledger fsys.

Lemma Read_versions (c : Chain) (blockID : string) (oldest : BlockVersion)
    (rest : list BlockVersion) :
  versions_of c blockID = oldest :: rest →
  Read c blockID =
    let v := default oldest
               (latest_clean_from (oldest :: rest) (length (oldest :: rest))) in
    (Data v, Metadata v, None).
Proof.
  unfold versions_of, Read. destruct (blocks c !! blockID) as [l|]; [|done].
  by intros ->.
Qed.

(** [ReadBlock] hands out what the chain read when that is not nil, and
    asks the local store otherwise. *)
Lemma service_ReadBlock_chain (s : block.Service) (fs : FS) (blockID : string)
    (c : Chain) (data metadata text : bytes) (ls : storage.LocalStorage) :
  block.craqChain s = Some c →
  Read c blockID = (data, metadata, None) →
  storage.ReadBlock (block.localStorage s) fs blockID = Some (ls, data, text, None) →
  ∃ s', block.ReadBlock s fs blockID = Some (s', data, None).
Proof.
  intros Hc Hread Hlocal. unfold block.ReadBlock. rewrite Hc, Hread.
  destruct data as [d|]; [by eexists|].
  rewrite Hlocal. simpl. by eexists.
Qed.

Lemma service_ReadBlock_local (s : block.Service) (fs : FS) (blockID : string)
    (data text : bytes) (ls : storage.LocalStorage) :
  block.craqChain s = None →
  storage.ReadBlock (block.localStorage s) fs blockID = Some (ls, data, text, None) →
  ∃ s', block.ReadBlock s fs blockID = Some (s', data, None).
Proof.
  intros Hc Hlocal. unfold block.ReadBlock. rewrite Hc, Hlocal. simpl. by eexists.
Qed.

Lemma wrap_int_small (z : Z) : int_min ≤ z ≤ int_max → wrap_int z = z.
Proof.
  unfold wrap_int, int_min, int_max. intros H.
  rewrite Z.mod_small; lia.
Qed.

Lemma numbered_lookup (vs : list BlockVersion) (i : nat) (v : BlockVersion) :
  numbered vs = true → vs !! i = Some v → Version v = Z.of_nat (S i).
Proof.
  intros Hn%bool_decide_eq_true Hi.
  assert ((Version <$> vs) !! i = Some (Version v)) as Hv
    by (by rewrite list_lookup_fmap, Hi).
  rewrite Hn, list_lookup_fmap in Hv.
  apply lookup_lt_Some in Hi.
  rewrite lookup_seq_lt in Hv by done. simpl in Hv. by injection Hv as <-.
Qed.

(** On a numbered list that leaves room for one more number, [Write]
    assigns the length of the list plus one. *)
Lemma nextVersion_of_numbered (vs : list BlockVersion) :
  numbered vs = true → bounded vs = true → nextVersion_of vs = len vs + 1.
Proof.
  unfold bounded, nextVersion_of, len. intros Hn Hb%Z.ltb_lt.
  destruct (last vs) as [u|] eqn:Hlast.
  - rewrite last_lookup in Hlast.
    rewrite (numbered_lookup _ _ _ Hn Hlast).
    assert (length vs ≠ 0)%nat by (destruct vs; [done|simpl; lia]).
    replace (S (Init.Nat.pred (length vs))) with (length vs) by lia.
    unfold int_add. apply wrap_int_small. unfold int_min, int_max in *. lia.
  - apply last_None in Hlast as ->. done.
Qed.

Lemma mark_clean_appended (vs : list BlockVersion) (v : BlockVersion) :
  (∀ i u, vs !! i = Some u → Version u ≠ Version v) →
  mark_clean (Version v) (vs ++ [v]) = vs ++ [set_clean v].
Proof.
  induction vs as [|u vs IH]; intros Hne; simpl.
  - by rewrite Z.eqb_refl.
  - destruct (Version u =? Version v) eqn:Heq.
    + apply Z.eqb_eq in Heq. by destruct (Hne 0%nat u).
    + rewrite IH; [done|]. intros i w Hi. by apply (Hne (S i)).
Qed.

Lemma versions_of_run_goroutine (c : Chain) (blockID : string) (l : loc) (nv : Z) :
  blocks c !! blockID = Some l →
  versions_of (run_goroutine (MarkClean l nv) c) blockID =
    mark_clean nv (versions_of c blockID).
Proof.
  intros Hl. unfold versions_of, run_goroutine, deref. rewrite Hl.
  destruct (heap c !! l) as [b|] eqn:Hb; simpl; rewrite Hl.
  - by rewrite lookup_insert_eq.
  - by rewrite Hb.
Qed.

(** Once its goroutine ran, the version a [Write] appended to a numbered
    list is the latest clean one. *)
Lemma versions_of_after_goroutine (c c' : Chain) (blockID : string)
    (data metadata : bytes) (now : Z) (g : goroutine) :
  numbered (versions_of c blockID) = true →
  bounded (versions_of c blockID) = true →
  Write c blockID data metadata now = (c', None, Some g) →
  versions_of (run_goroutine g c') blockID =
    versions_of c blockID ++
    [mkBlockVersion (len (versions_of c blockID) + 1) data metadata now true].
Proof.
  intros Hn Hb (l & Hl & [= ->] & Hvs)%Write_success.
  rewrite (versions_of_run_goroutine _ _ _ _ Hl), Hvs.
  rewrite (nextVersion_of_numbered _ Hn Hb).
  set (v := mkBlockVersion _ data metadata now false).
  change (len (versions_of c blockID) + 1) with (Version v).
  rewrite mark_clean_appended; [done|].
  intros i u Hi. rewrite (numbered_lookup _ _ _ Hn Hi). simpl.
  apply lookup_lt_Some in Hi. unfold len. lia.
Qed.

End write_facts.

Section write_claims.

Import craq ledger fsys scenario.

Lemma Read_latest_clean (c : Chain) (blockID : string) (vs : list BlockVersion)
    (v : BlockVersion) :
  versions_of c blockID = vs ++ [v] → Clean v = true →
  Read c blockID = (Data v, Metadata v, None).
Proof.
  intros Hvs Hv.
  destruct (versions_of c blockID) as [|oldest rest] eqn:Hcons.
  { by destruct vs. }
  rewrite (Read_versions _ _ _ _ Hcons), Hvs.
  by rewrite latest_clean_from_last.
Qed.

(** C3, counterexample.  Two successful writes of [abc123]: the metadata
    the second call built does not carry version 2. *)
Lemma C3_metadata_carries_assigned_version_counterexample :
  ¬ spec.metadata_carries_assigned_version service1 disk1 "abc123"
      [(str "old", 100, 101); (str "new", 200, 201)].
Proof.
  intros H.
  assert (∃ s' fs' m0 m1,
            spec.write_sequence service1 disk1 "abc123"
              [(str "old", 100, 101); (str "new", 200, 201)] = Some (s', fs', [m0; m1]) ∧
            storage.Version m1 = 1) as (s' & fs' & m0 & m1 & Hrun & Hv).
  { eexists _, _, _, _. split; vm_compute; reflexivity. }
  specialize (H _ _ _ Hrun 1%nat m1 eq_refl). rewrite Hv in H. discriminate H.
Qed.

(** C3, as amended.  In every sequence of successful [WriteBlock] calls
    on a block id each call builds metadata with version 1, the constant
    in [WriteBlock]; and what the last call left in the sidecar file and,
    with a chain configured, in the latest version of the block is the
    JSON text of that metadata. *)
Theorem C3_metadata_version_is_constant (s s' : block.Service) (fs fs' : FS)
    (blockID : string) (calls : list (bytes * Z * Z))
    (metas : list storage.BlockMetadata) :
  spec.write_sequence s fs blockID calls = Some (s', fs', metas) →
  length metas = length calls ∧
  Forall (fun m => storage.Version m = 1) metas ∧
  ∀ m, last metas = Some m →
    ∃ text metaPath,
      storage.json_Marshal m = (Some text, None) ∧
      storage.getMetadataPath (block.localStorage s') blockID = Some metaPath ∧
      ioutil_ReadFile fs' metaPath = (Some text, None) ∧
      ∀ c', block.craqChain s' = Some c' →
        ∃ v, latest_version c' blockID = Some v ∧ Metadata v = Some text.
Proof.
  revert s fs metas.
  induction calls as [|[[data now] chain_now] rest IH]; intros s fs metas; simpl.
  { intros [= <- <- <-]. by repeat split. }
  destruct (block.WriteBlock s fs blockID data now chain_now)
    as [[[[s1 fs1] [e|]] g]|] eqn:Hwrite; try done.
  destruct (spec.write_sequence s1 fs1 blockID rest) as [[[s2 fs2] metas']|] eqn:Hrest;
    [|done].
  intros [= <- <- <-].
  destruct (IH _ _ _ Hrest) as (Hlen & Hall & Hlast).
  split; [simpl; by rewrite Hlen|]. split; [by constructor|].
  intros m Hm. destruct rest as [|call rest].
  - simpl in Hrest. injection Hrest as <- <- <-. simpl in Hm. injection Hm as <-.
    apply service_WriteBlock_success in Hwrite as (text & Hjson & Hchain & Hlocal).
    apply WriteBlock_success in Hlocal as (blockPath & Hbp & Hls & _ & Hmeta).
    exists text, (blockPath ++ ".meta")%string.
    split; [done|]. split.
    { rewrite Hls. unfold storage.getMetadataPath.
      by rewrite getBlockPath_set_cache, Hbp. }
    split; [apply ReadFile_file; by apply Hmeta|].
    intros c' Hc'. destruct (block.craqChain s) as [c|].
    + destruct Hchain as (c1 & Hw & Hc1). rewrite Hc1 in Hc'. injection Hc' as <-.
      apply Write_success in Hw as (l & _ & _ & Hvs).
      eexists. unfold latest_version. rewrite Hvs, last_snoc. done.
    + destruct Hchain as [Hnone _]. by rewrite Hnone in Hc'.
  - destruct metas' as [|m' metas']; [done|]. apply Hlast. exact Hm.
Qed.

Lemma C3_metadata_version_is_constant_witness :
  ∃ s' fs' metas,
    spec.write_sequence service1 disk1 "abc123"
      [(str "old", 100, 101); (str "new", 200, 201)] = Some (s', fs', metas) ∧
    length metas = 2%nat ∧
    Forall (fun m => storage.Version m = 1) metas ∧
    ∀ m, last metas = Some m →
      ∃ text metaPath,
        storage.json_Marshal m = (Some text, None) ∧
        storage.getMetadataPath (block.localStorage s') "abc123" = Some metaPath ∧
        ioutil_ReadFile fs' metaPath = (Some text, None) ∧
        ∀ c', block.craqChain s' = Some c' →
          ∃ v, latest_version c' "abc123" = Some v ∧ Metadata v = Some text.
Proof.
  eexists _, _, _. split; [vm_compute; reflexivity|].
  eapply (C3_metadata_version_is_constant service1 _ disk1 _ "abc123"
            [(str "old", 100, 101); (str "new", 200, 201)]).
  vm_compute. reflexivity.
Defined.

(** The chain numbered the second write 2 while its metadata says 1. *)
Example second_write_versions :
  ∃ s' fs' m0 m1 c',
    spec.write_sequence service1 disk1 "abc123"
      [(str "old", 100, 101); (str "new", 200, 201)] = Some (s', fs', [m0; m1]) ∧
    block.craqChain s' = Some c' ∧
    Version <$> latest_version c' "abc123" = Some 2 ∧
    storage.Version m1 = 1.
Proof. eexists _, _, _, _, _. repeat split; vm_compute; reflexivity. Qed.

(** C4, counterexample.  Block [abc123] already has version 1; a
    successful write of new data followed at once by a read returns the
    old data. *)
Lemma C4_write_read_round_trip_counterexample :
  ¬ spec.write_read_round_trip service2 disk2 "abc123" (str "new") 200 201.
Proof.
  intros H. edestruct H as [s'' Hread]; [vm_compute; reflexivity|].
  vm_compute in Hread. discriminate Hread.
Qed.

Lemma latest_clean_from_app (vs more : list BlockVersion) (n : nat) :
  (n ≤ length vs)%nat →
  latest_clean_from (vs ++ more) n = latest_clean_from vs n.
Proof.
  induction n as [|n IH]; intros Hn; [done|]. simpl.
  rewrite lookup_app_l by lia.
  destruct (vs !! n) as [v|]; [|done].
  destruct (Clean v); [done|]. apply IH. lia.
Qed.

(** A dirty version appended to a block does not change what the scan of
    [Read] finds. *)
Lemma latest_clean_from_snoc_dirty (vs : list BlockVersion) (v : BlockVersion) :
  Clean v = false →
  latest_clean_from (vs ++ [v]) (length (vs ++ [v])) = latest_clean_from vs (length vs).
Proof.
  intros Hv. rewrite length_app, Nat.add_1_r. simpl.
  rewrite lookup_app_r, Nat.sub_diag by lia. simpl. rewrite Hv.
  by apply latest_clean_from_app.
Qed.

(** C4, as amended.  A successful [WriteBlock] followed by [ReadBlock]
    returns exactly the data written when no chain is configured or the
    chain held no version of the block before the write.  When the block
    had earlier versions, [Chain.Read] answers after the write as it did
    before it, and [ReadBlock] returns the data of that earlier version
    when it is not nil, and the data written, from the local store, when
    it is nil.  Once the goroutine that the write started has marked the
    new version clean (the versions being numbered 1, 2, ... as the chain
    numbers them), [ReadBlock] returns the data written. *)
Theorem C4_round_trip_first_write_or_after_goroutine (s s' : block.Service)
    (fs fs' : FS) (blockID : string) (data : bytes) (now chain_now : Z)
    (g : option goroutine) :
  block.WriteBlock s fs blockID data now chain_now = Some (s', fs', None, g) →
  ((block.craqChain s = None ∨
    ∃ c, block.craqChain s = Some c ∧ versions_of c blockID = []) →
   ∃ s'', block.ReadBlock s' fs' blockID = Some (s'', data, None)) ∧
  (∀ c oldest rest,
     block.craqChain s = Some c →
     versions_of c blockID = oldest :: rest →
     ∃ c' s'', block.craqChain s' = Some c' ∧
       Read c' blockID = Read c blockID ∧
       block.ReadBlock s' fs' blockID =
         Some (s'', match (Read c blockID).1.1 with
                    | Some earlier => Some earlier
                    | None => data
                    end, None)) ∧
  (∀ c, block.craqChain s = Some c →
        numbered (versions_of c blockID) = true →
        bounded (versions_of c blockID) = true →
        ∃ c' g0, block.craqChain s' = Some c' ∧ g = Some g0 ∧
          ∃ s'', block.ReadBlock
                   (block.mkService (block.localStorage s') (Some (run_goroutine g0 c')))
                   fs' blockID = Some (s'', data, None)).
Proof.
  intros (text & Hjson & Hchain & Hlocal)%service_WriteBlock_success.
  apply storage_ReadBlock_after_WriteBlock in Hlocal.
  split_and!.
  - intros [Hnone|(c & Hc & Hvs)].
    + rewrite Hnone in Hchain. destruct Hchain as [Hc' _].
      by eapply service_ReadBlock_local.
    + rewrite Hc in Hchain. destruct Hchain as (c' & Hw & Hc').
      apply Write_success in Hw as (l & _ & _ & Hvs'). rewrite Hvs in Hvs'.
      eapply service_ReadBlock_chain; [exact Hc'| |exact Hlocal].
      by rewrite (Read_versions _ _ _ _ Hvs').
  - intros c oldest rest Hc Hvs. rewrite Hc in Hchain.
    destruct Hchain as (c' & Hw & Hc').
    apply Write_success in Hw as (l & _ & _ & Hvs'). rewrite Hvs in Hvs'.
    set (v := mkBlockVersion _ data (Some text) chain_now false) in Hvs'.
    assert (Read c' blockID = Read c blockID) as Hread.
    { pose proof (latest_clean_from_snoc_dirty (oldest :: rest) v eq_refl) as Hscan.
      change ((oldest :: rest) ++ [v]) with (oldest :: (rest ++ [v])) in Hscan, Hvs'.
      rewrite (Read_versions _ _ _ _ Hvs), (Read_versions _ _ _ _ Hvs').
      cbv zeta. by rewrite Hscan. }
    exists c'. unfold block.ReadBlock. rewrite Hc', Hread.
    destruct (Read c blockID) as [[[earlier|] metadata] err] eqn:Hold.
    + rewrite (Read_versions _ _ _ _ Hvs) in Hold. injection Hold as _ _ <-.
      by eexists.
    + rewrite (Read_versions _ _ _ _ Hvs) in Hold. injection Hold as _ _ <-.
      rewrite Hlocal. simpl. by eexists.
  - intros c Hc Hn Hb. rewrite Hc in Hchain. destruct Hchain as (c' & Hw & Hc').
    pose proof (Write_success _ _ _ _ _ _ _ Hw) as (l & _ & -> & _).
    eexists c', _. split; [done|]. split; [done|].
    eapply (service_ReadBlock_chain (block.mkService _ _)); [done| |exact Hlocal].
    pose proof (versions_of_after_goroutine c c' blockID data (Some text) chain_now
                  _ Hn Hb Hw) as Hvs.
    by rewrite (Read_latest_clean _ _ _ _ Hvs eq_refl).
Qed.

Lemma C4_round_trip_first_write_or_after_goroutine_witness :
  ∃ s' fs' g,
    block.WriteBlock service2 disk2 "abc123" (str "new") 200 201 = Some (s', fs', None, g) ∧
    ((block.craqChain service2 = None ∨
      ∃ c, block.craqChain service2 = Some c ∧ versions_of c "abc123" = []) →
     ∃ s'', block.ReadBlock s' fs' "abc123" = Some (s'', str "new", None)) ∧
    (∀ c oldest rest,
       block.craqChain service2 = Some c →
       versions_of c "abc123" = oldest :: rest →
       ∃ c' s'', block.craqChain s' = Some c' ∧
         Read c' "abc123" = Read c "abc123" ∧
         block.ReadBlock s' fs' "abc123" =
           Some (s'', match (Read c "abc123").1.1 with
                      | Some earlier => Some earlier
                      | None => str "new"
                      end, None)) ∧
    (∀ c, block.craqChain service2 = Some c →
          numbered (versions_of c "abc123") = true →
          bounded (versions_of c "abc123") = true →
          ∃ c' g0, block.craqChain s' = Some c' ∧ g = Some g0 ∧
            ∃ s'', block.ReadBlock
                     (block.mkService (block.localStorage s') (Some (run_goroutine g0 c')))
                     fs' "abc123" = Some (s'', str "new", None)).
Proof.
  eexists _, _, _. split; [vm_compute; reflexivity|].
  eapply (C4_round_trip_first_write_or_after_goroutine service2 _ disk2 _
            "abc123" (str "new") 200 201).
  vm_compute. reflexivity.
Defined.

(** The round trip on the started node: the second write is read back
    as the first until the goroutine ran, and as itself afterwards. *)
Example round_trip_before_and_after_goroutine :
  ∃ s' fs' g c',
    block.WriteBlock service2 disk2 "abc123" (str "new") 200 201 =
      Some (s', fs', None, Some g) ∧
    block.craqChain s' = Some c' ∧
    block.ReadBlock s' fs' "abc123" = Some (s', str "old", None) ∧
    block.ReadBlock (block.mkService (block.localStorage s') (Some (run_goroutine g c')))
                    fs' "abc123" =
      Some (block.mkService (block.localStorage s') (Some (run_goroutine g c')),
            str "new", None).
Proof. eexists _, _, _, _. repeat split; vm_compute; reflexivity. Qed.

(** When the earlier version holds nil data, the chain's answer is nil,
    [ReadBlock] asks the local store and the new data is read back before
    any goroutine ran. *)
Example round_trip_over_nil_version :
  ∃ s1 fs1 g1 s2 fs2 g2,
    block.WriteBlock service1 disk1 "abc123" None 100 101 = Some (s1, fs1, None, g1) ∧
    block.WriteBlock s1 fs1 "abc123" (str "new") 200 201 = Some (s2, fs2, None, g2) ∧
    block.ReadBlock s2 fs2 "abc123" = Some (s2, str "new", None).
Proof. eexists _, _, _, _, _, _. repeat split; vm_compute; reflexivity. Qed.

End write_claims.

(** ** The version ledger *)

Section ledger_facts.

Import craq ledger.

Lemma heap_blocks_forallb (P : Block → bool) (c : Chain) :
  forallb P (heap_blocks c) = true ↔ ∀ l b, heap c !! l = Some b → P b = true.
Proof.
  unfold heap_blocks. rewrite forallb_forall. split.
  - intros H l b Hl. apply H, list_elem_of_In, list_elem_of_fmap.
    exists (l, b). split; [done|]. by apply elem_of_map_to_list.
  - intros H b Hb. apply list_elem_of_In, list_elem_of_fmap in Hb as [[l b'] [-> Hb]].
    apply elem_of_map_to_list in Hb. by apply (H l).
Qed.

Lemma versions_of_heap (P : list BlockVersion → bool) (c : Chain) (blockID : string) :
  P [] = true →
  forallb (fun b => P (Versions b)) (heap_blocks c) = true →
  P (versions_of c blockID) = true.
Proof.
  intros Hnil Hall. unfold versions_of, deref.
  destruct (blocks c !! blockID) as [l|]; [|done].
  destruct (heap c !! l) as [b|] eqn:Hb; [|done].
  simpl. by apply (proj1 (heap_blocks_forallb _ c) Hall l).
Qed.

Lemma numbered_snoc (vs : list BlockVersion) (v : BlockVersion) :
  numbered vs = true → Version v = len vs + 1 → numbered (vs ++ [v]) = true.
Proof.
  intros Hn%bool_decide_eq_true Hv. apply bool_decide_eq_true.
  rewrite fmap_app, length_app, Hn, Nat.add_1_r, seq_S, fmap_app. simpl.
  rewrite Hv. unfold len. do 3 f_equal. lia.
Qed.

Lemma mark_clean_versions (nv : Z) (vs : list BlockVersion) :
  Version <$> mark_clean nv vs = Version <$> vs.
Proof.
  induction vs as [|v vs IH]; [done|]. cbn [mark_clean].
  destruct (Version v =? nv); rewrite !fmap_cons; [done|]. by rewrite IH.
Qed.

Lemma mark_clean_length (nv : Z) (vs : list BlockVersion) :
  length (mark_clean nv vs) = length vs.
Proof.
  induction vs as [|v vs IH]; [done|]. simpl.
  destruct (Version v =? nv); simpl; [done|]. by rewrite IH.
Qed.

Lemma numbered_mark_clean (nv : Z) (vs : list BlockVersion) :
  numbered (mark_clean nv vs) = numbered vs.
Proof. unfold numbered. by rewrite mark_clean_versions, mark_clean_length. Qed.

Lemma version_kept_refl (v : BlockVersion) : version_kept v v.
Proof. by repeat split. Qed.

Lemma Forall2_version_kept_refl (vs : list BlockVersion) : Forall2 version_kept vs vs.
Proof. induction vs; constructor; [apply version_kept_refl|done]. Qed.

Lemma Forall2_version_kept_mark_clean (nv : Z) (vs : list BlockVersion) :
  Forall2 version_kept vs (mark_clean nv vs).
Proof.
  induction vs as [|v vs IH]; simpl; [constructor|].
  destruct (Version v =? nv).
  - constructor; [|apply Forall2_version_kept_refl].
    unfold version_kept. simpl. by repeat split.
  - constructor; [apply version_kept_refl|exact IH].
Qed.

Lemma appended_refl (vs : list BlockVersion) : appended vs vs.
Proof.
  exists []. rewrite firstn_all, app_nil_r. split; [|done].
  apply Forall2_version_kept_refl.
Qed.

Lemma appended_snoc (vs : list BlockVersion) (v : BlockVersion) : appended vs (vs ++ [v]).
Proof.
  exists [v]. rewrite take_app_length. split; [|done].
  apply Forall2_version_kept_refl.
Qed.

Lemma appended_mark_clean (nv : Z) (vs : list BlockVersion) :
  appended vs (mark_clean nv vs).
Proof.
  exists []. rewrite <- (mark_clean_length nv vs).
  rewrite firstn_all, app_nil_r. split; [|done].
  apply Forall2_version_kept_mark_clean.
Qed.

Lemma append_only_same_heap (c c' : Chain) : heap c' = heap c → append_only c c'.
Proof.
  intros Hheap l b Hb. exists b. rewrite Hheap. split; [done|]. split; [done|].
  apply appended_refl.
Qed.

Lemma AddNode_heap (c c' : Chain) (id address : string) (e : option error) :
  AddNode c id address = Some (c', e) → heap c' = heap c.
Proof.
  unfold AddNode. destruct (len (nodes c) >=? chainLength c); [by intros [= <- <-]|].
  destruct (len (nodes c) =? 0); [by intros [= <- <-]|].
  destruct (tail c) as [t|]; [|done]. simpl.
  destruct (nodes c !! t); [|done]. simpl. by intros [= <- <-].
Qed.

(** The heap after a successful [Write]: one block replaced by itself
    with the new version appended, or a new block with that version. *)
Lemma Write_heap (c c' : Chain) (blockID : string) (data metadata : bytes) (now : Z)
    (g : option goroutine) :
  Write c blockID data metadata now = (c', None, g) →
  ∃ l bid,
    heap c' =
      <[l := mkBlock bid
               (versions_of c blockID ++
                [mkBlockVersion (nextVersion_of (versions_of c blockID))
                                data metadata now false])]> (heap c) ∧
    ∀ b, heap c !! l = Some b → Versions b = versions_of c blockID ∧ Block_ID b = bid.
Proof.
  unfold Write, versions_of. destruct (head c) as [h|]; [|done].
  destruct (blocks c !! blockID) as [l|] eqn:Hl; intros [= <- <-].
  - exists l, (Block_ID (deref c l)). split; [done|].
    intros b Hb. unfold deref. by rewrite Hb.
  - exists (fresh (dom (heap c))), blockID. split; [done|].
    intros b Hb. exfalso. apply (is_fresh (dom (heap c))).
    apply elem_of_dom. by exists b.
Qed.

Lemma Write_failure (c c' : Chain) (blockID : string) (data metadata : bytes) (now : Z)
    (e : error) (g : option goroutine) :
  Write c blockID data metadata now = (c', Some e, g) → c' = c.
Proof.
  unfold Write. destruct (head c); [|by intros [= <-]].
  by destruct (blocks c !! blockID).
Qed.

Lemma nextVersion_of_last (vs : list BlockVersion) :
  numbered vs = true → bounded vs = true →
  nextVersion_of vs = match last vs with Some u => Version u + 1 | None => 1 end.
Proof.
  intros Hn Hb. rewrite (nextVersion_of_numbered vs Hn Hb).
  destruct (last vs) as [u|] eqn:Hlast.
  - rewrite last_lookup in Hlast. rewrite (numbered_lookup _ _ _ Hn Hlast).
    assert (length vs ≠ 0)%nat by (destruct vs; [done|simpl; lia]).
    unfold len. lia.
  - by apply last_None in Hlast as ->.
Qed.

Lemma exec_numbered (o : op) (c c' : Chain) :
  chain_numbered c = true → chain_bounded c = true → exec o c = Some c' →
  chain_numbered c' = true.
Proof.
  intros Hn Hb Hexec.
  assert (∀ blockID, numbered (versions_of c blockID) = true) as Hnv
    by (intros; by apply (versions_of_heap numbered)).
  assert (∀ blockID, bounded (versions_of c blockID) = true) as Hbv
    by (intros; by apply (versions_of_heap bounded)).
  assert (∀ c2, heap c2 = heap c → chain_numbered c2 = true) as Hsame.
  { intros c2 Hheap. unfold chain_numbered, heap_blocks. by rewrite Hheap. }
  destruct o as [id address| |blockID data metadata now|blockID|blockID| |[l nv]];
    simpl in Hexec.
  - destruct (AddNode c id address) as [[c2 e]|] eqn:Hadd; [|done].
    injection Hexec as <-. apply Hsame. by apply AddNode_heap in Hadd.
  - injection Hexec as <-. apply Hsame. unfold Initialize. by destruct (_ =? _).
  - injection Hexec as <-.
    destruct (Write c blockID data metadata now) as [[c2 [e|]] g] eqn:Hw; simpl.
    { apply Write_failure in Hw as ->. by apply Hsame. }
    apply Write_heap in Hw as (l & bid & Hheap & Hold).
    apply heap_blocks_forallb. intros l0 b0. rewrite Hheap.
    destruct (decide (l0 = l)) as [->|Hne].
    + rewrite lookup_insert_eq. intros [= <-]. simpl.
      apply numbered_snoc; [done|]. simpl. by apply nextVersion_of_numbered.
    + rewrite lookup_insert_ne by done.
      by apply (proj1 (heap_blocks_forallb _ c) Hn).
  - injection Hexec as <-. by apply Hsame.
  - injection Hexec as <-. apply Hsame. unfold Delete. by destruct (blocks c !! blockID).
  - injection Hexec as <-. by apply Hsame.
  - injection Hexec as <-. simpl.
    destruct (heap c !! l) as [b|] eqn:Hl; [|by apply Hsame].
    apply heap_blocks_forallb. intros l0 b0. simpl.
    destruct (decide (l0 = l)) as [->|Hne].
    + rewrite lookup_insert_eq. intros [= <-]. simpl. rewrite numbered_mark_clean.
      by apply (proj1 (heap_blocks_forallb _ c) Hn l).
    + rewrite lookup_insert_ne by done.
      by apply (proj1 (heap_blocks_forallb _ c) Hn).
Qed.

End ledger_facts.

Section ledger_claims.

Import craq ledger scenario.

(** C7.  On a chain whose blocks all have their versions numbered 1, 2,
    3, ... (and short of the largest [int]), every operation, the
    goroutines of [Write] included, leaves the versions of every block
    numbered 1, 2, 3, ... and only appends to them: the versions a block
    had are still there in the same order, unchanged but for a clean flag
    that was raised.  A successful [Write] gives the version it appends
    the number of the block's last version plus one, or 1 when the block
    has none. *)
Theorem C7_versions_numbered_and_append_only (o : op) (c c' : Chain) :
  chain_numbered c = true →
  chain_bounded c = true →
  exec o c = Some c' →
  chain_numbered c' = true ∧
  append_only c c' ∧
  ∀ blockID data metadata now c1 g,
    Write c blockID data metadata now = (c1, None, g) →
    ∃ v, latest_version c1 blockID = Some v ∧
         Version v = match latest_version c blockID with
                     | Some u => Version u + 1
                     | None => 1
                     end.
Proof.
  intros Hn Hb Hexec.
  assert (∀ blockID, numbered (versions_of c blockID) = true) as Hnv
    by (intros; by apply (versions_of_heap numbered)).
  assert (∀ blockID, bounded (versions_of c blockID) = true) as Hbv
    by (intros; by apply (versions_of_heap bounded)).
  assert (∀ c2, heap c2 = heap c → chain_numbered c2 = true ∧ append_only c c2) as Hsame.
  { intros c2 Hheap. split; [|by apply append_only_same_heap].
    unfold chain_numbered, heap_blocks. by rewrite Hheap. }
  split_and!.
  - by apply (exec_numbered o c).
  - destruct o as [id address| |blockID data metadata now|blockID|blockID| |[l nv]];
      simpl in Hexec.
    + destruct (AddNode c id address) as [[c2 e]|] eqn:Hadd; [|done].
      injection Hexec as <-. apply Hsame. by apply AddNode_heap in Hadd.
    + injection Hexec as <-. apply Hsame. unfold Initialize. by destruct (_ =? _).
    + injection Hexec as <-.
      destruct (Write c blockID data metadata now) as [[c2 [e|]] g] eqn:Hw; simpl.
      { apply Write_failure in Hw as ->. by apply Hsame. }
      apply Write_heap in Hw as (l & bid & Hheap & Hold).
      intros l0 b0 Hl0. rewrite Hheap.
      destruct (decide (l0 = l)) as [->|Hne].
      * destruct (Hold _ Hl0) as [Hvs Hid].
        eexists. rewrite lookup_insert_eq. split; [done|]. simpl. split; [done|].
        rewrite Hvs. apply appended_snoc.
      * exists b0. rewrite lookup_insert_ne by done. split; [done|]. split; [done|].
        apply appended_refl.
    + injection Hexec as <-. by apply Hsame.
    + injection Hexec as <-. apply Hsame. unfold Delete. by destruct (blocks c !! blockID).
    + injection Hexec as <-. by apply Hsame.
    + injection Hexec as <-. simpl.
      destruct (heap c !! l) as [b|] eqn:Hl; [|by apply Hsame].
      intros l0 b0 Hl0. simpl.
      destruct (decide (l0 = l)) as [->|Hne].
      * rewrite Hl in Hl0. injection Hl0 as <-.
        eexists. rewrite lookup_insert_eq. split; [done|]. simpl. split; [done|].
        apply appended_mark_clean.
      * exists b0. rewrite lookup_insert_ne by done. split; [done|]. split; [done|].
        apply appended_refl.
  - intros blockID data metadata now c1 g (l & _ & _ & Hvs)%Write_success.
    eexists. unfold latest_version. rewrite Hvs, last_snoc. split; [done|]. simpl.
    by apply nextVersion_of_last.
Qed.

Lemma C7_versions_numbered_and_append_only_witness :
  chain_numbered chain2 = true ∧
  chain_bounded chain2 = true ∧
  chain_numbered chain3 = true ∧
  append_only chain2 chain3 ∧
  ∀ blockID data metadata now c1 g,
    Write chain2 blockID data metadata now = (c1, None, g) →
    ∃ v, latest_version c1 blockID = Some v ∧
         Version v = match latest_version chain2 blockID with
                     | Some u => Version u + 1
                     | None => 1
                     end.
Proof.
  split; [vm_compute; reflexivity|]. split; [vm_compute; reflexivity|].
  apply (C7_versions_numbered_and_append_only
           (OpWrite "abc123" (str "new") (str "{}") 201) chain2 chain3);
    vm_compute; reflexivity.
Defined.

End ledger_claims.

(** ** More on the chain: its shape *)

Section topology_facts.

Import craq ledger topology.

Lemma nodes_ok_lookup (n i : nat) (l : list Node) :
  nodes_ok n i l = true ↔ ∀ j nd, l !! j = Some nd → node_ok n (i + j) nd = true.
Proof.
  revert i. induction l as [|x l IH]; intros i; simpl.
  - split; [by intros _ j nd|done].
  - rewrite andb_true_iff, IH. split.
    + intros [Hx Hl] [|j] nd; simpl.
      * intros [= <-]. by rewrite Nat.add_0_r.
      * intros Hj. replace (i + S j)%nat with (S i + j)%nat by lia. by apply Hl.
    + intros H. split.
      * specialize (H 0%nat x eq_refl). by rewrite Nat.add_0_r in H.
      * intros j nd Hj. replace (S i + j)%nat with (i + S j)%nat by lia. by apply H.
Qed.

Lemma topology_ok_unfold (c : Chain) :
  topology_ok c = true ↔
  len (nodes c) ≤ chainLength c ∧
  head c = (if nodes c is [] then None else Some 0%nat) ∧
  tail c = (if nodes c is [] then None else Some (length (nodes c) - 1)%nat) ∧
  ∀ j nd, nodes c !! j = Some nd → node_ok (length (nodes c)) j nd = true.
Proof.
  unfold topology_ok. rewrite !andb_true_iff, !bool_decide_eq_true, Z.leb_le,
    nodes_ok_lookup. simpl. tauto.
Qed.

(** The node at the old tail after [unlink_tail], seen in the longer chain. *)
Lemma node_ok_unlink_tail (n : nat) (nd : Node) :
  n ≠ 0%nat → node_ok n (n - 1) nd = true →
  node_ok (S n) (n - 1) (unlink_tail n nd) = true.
Proof.
  destruct n as [|m]; [done|]. intros _.
  replace (S m - 1)%nat with m by lia.
  unfold node_ok. cbn [IsHead IsTail NextNode PrevNode unlink_tail].
  assert ((S m =? S (S m))%nat = false) as -> by (apply Nat.eqb_neq; lia).
  rewrite Nat.eqb_refl, !andb_true_iff, !bool_decide_eq_true.
  intros [[[Hh _] _] Hp]. by rewrite Hh, Hp.
Qed.

Lemma node_ok_inner (n j : nat) (nd : Node) :
  (S j < n)%nat → node_ok n j nd = true → node_ok (S n) j nd = true.
Proof.
  intros Hj. unfold node_ok.
  assert ((S j =? n)%nat = false) as -> by (apply Nat.eqb_neq; lia).
  by assert ((S j =? S n)%nat = false) as -> by (apply Nat.eqb_neq; lia).
Qed.

Lemma snoc_match {A B : Type} (l : list A) (x : A) (a b : B) :
  match l ++ [x] with [] => a | _ :: _ => b end = b.
Proof. by destruct l. Qed.

Lemma AddNode_topology (c : Chain) (id address : string) :
  topology_ok c = true →
  ∃ c' e, AddNode c id address = Some (c', e) ∧ topology_ok c' = true ∧
          chainLength c' = chainLength c ∧ blocks c' = blocks c ∧ heap c' = heap c ∧
          match e with
          | Some _ => c' = c ∧ len (nodes c) = chainLength c
          | None => Node_ID <$> nodes c' = (Node_ID <$> nodes c) ++ [id]
          end.
Proof.
  intros Hok. pose proof Hok as (Hlen & Hhead & Htail & Hnodes)%topology_ok_unfold.
  unfold AddNode. destruct (len (nodes c) >=? chainLength c) eqn:Hfull.
  { exists c, (Some (errors_New "chain is already at maximum length")).
    apply Z.geb_le in Hfull. repeat split; try done. lia. }
  rewrite Z.geb_leb in Hfull. apply Z.leb_gt in Hfull.
  destruct (decide (nodes c = [])) as [Hnil|Hne].
  - rewrite Hnil in *. simpl. eexists _, None. split; [done|]. split; [|done].
    apply topology_ok_unfold. simpl.
    repeat split; try done; [unfold len in *; simpl in *; lia|].
    intros [|j] nd; simpl; [by intros [= <-]|done].
  - set (n := length (nodes c)) in *.
    assert (n ≠ 0%nat) as Hn by (unfold n; by destruct (nodes c)).
    assert ((len (nodes c) =? 0) = false) as -> by (apply Z.eqb_neq; unfold len; lia).
    assert (tail c = Some (n - 1)%nat) as Htl.
    { rewrite Htail. revert Hne. unfold n. by destruct (nodes c). }
    assert (head c = Some 0%nat) as Hhd.
    { rewrite Hhead. revert Hne. by destruct (nodes c). }
    rewrite Htl. simpl.
    destruct (nodes c !! (n - 1)%nat) as [last_node|] eqn:Hlast.
    2:{ apply lookup_ge_None in Hlast. unfold n in *. lia. }
    simpl. eexists _, None. split; [done|].
    assert (length (alter (unlink_tail n) (n - 1)%nat (nodes c) ++
                    [mkNode id address false true None (Some (n - 1)%nat)]) = S n) as Hlen'.
    { rewrite length_app, length_alter. simpl. unfold n. lia. }
    split; [|repeat split; try done].
    + apply topology_ok_unfold. simpl. rewrite !snoc_match, Hlen'.
      repeat split.
      * unfold len in *. rewrite Hlen'. fold n in Hfull. lia.
      * done.
      * f_equal. lia.
      * intros j nd. destruct (decide (j < n)%nat) as [Hj|Hj].
        -- rewrite lookup_app_l by (rewrite length_alter; done).
           destruct (decide (j = n - 1)%nat) as [->|Hjn].
           ++ rewrite list_lookup_alter_eq, Hlast. simpl. intros [= <-].
              apply node_ok_unlink_tail; [done|]. by apply Hnodes.
           ++ rewrite list_lookup_alter_ne by done. intros Hnd.
              apply node_ok_inner; [lia|]. by apply Hnodes.
        -- rewrite lookup_app_r by (rewrite length_alter; fold n; lia).
           rewrite length_alter. fold n.
           destruct (j - n)%nat as [|k] eqn:Hk; simpl; [|by destruct k].
           intros [= <-]. assert (j = n) as -> by lia.
           unfold node_ok. simpl. rewrite Nat.eqb_refl.
           assert ((n =? 0)%nat = false) as -> by (by apply Nat.eqb_neq).
           by rewrite !bool_decide_eq_true_2.
    + cbn [nodes set_nodes]. rewrite fmap_app. f_equal.
      apply list_eq. intros j. rewrite !list_lookup_fmap.
      destruct (decide (j = n - 1)%nat) as [->|Hjn].
      * rewrite list_lookup_alter_eq. by destruct (nodes c !! (n - 1)%nat).
      * by rewrite list_lookup_alter_ne.
Qed.

End topology_facts.

Section topology_properties.

Import craq ledger topology scenario.

Lemma topology_ok_same_nodes (c c' : Chain) :
  chainLength c' = chainLength c → nodes c' = nodes c →
  head c' = head c → tail c' = tail c →
  topology_ok c = true → topology_ok c' = true.
Proof. unfold topology_ok. by intros -> -> -> ->. Qed.

Lemma exec_topology (o : op) (c : Chain) :
  topology_ok c = true → ∃ c', exec o c = Some c' ∧ topology_ok c' = true.
Proof.
  intros Hok.
  destruct o as [id address| |blockID data metadata now|blockID|blockID| |[l nv]];
    simpl.
  - destruct (AddNode_topology c id address Hok) as (c' & e & -> & Hok' & _).
    by exists c'.
  - eexists. split; [done|]. unfold Initialize. by destruct (_ =? _).
  - eexists. split; [done|]. unfold Write. destruct (head c); [|done].
    by destruct (blocks c !! blockID).
  - by exists c.
  - eexists. split; [done|]. unfold Delete. by destruct (blocks c !! blockID).
  - by exists c.
  - eexists. split; [done|]. by destruct (heap c !! l).
Qed.

(** X1.  No schedule of chain operations started on a new chain panics
    (the tail that [AddNode] dereferences is never nil on a chain that
    has nodes), and the chain it reaches is well shaped: at most
    [chainLength] nodes, the head pointer on the first node and the tail
    pointer on the last one, exactly those two flagged as head and tail,
    and every node linked to its two neighbours. *)
Theorem X1_reachable_chain_is_well_shaped (chainLength replicaFactor : Z)
    (c0 : Chain) (ops : list op) :
  NewChain chainLength replicaFactor = inl c0 →
  ∃ c, run ops c0 = Some c ∧ topology_ok c = true.
Proof.
  intros Hnew.
  assert (topology_ok c0 = true) as Hok.
  { unfold NewChain in Hnew. destruct (chainLength <=? 0) eqn:Hpos; [done|].
    destruct (_ || _); [done|]. injection Hnew as <-.
    apply topology_ok_unfold. simpl. apply Z.leb_gt in Hpos.
    repeat split; try done. unfold len. simpl. lia. }
  clear Hnew. revert c0 Hok. induction ops as [|o ops IH]; intros c0 Hok; simpl.
  - by exists c0.
  - destruct (exec_topology o c0 Hok) as (c1 & -> & Hok1). simpl. by apply IH.
Qed.

Lemma X1_reachable_chain_is_well_shaped_witness :
  ∃ c, run [OpAddNode "node1" "a:1"; OpWrite "abc123" (str "x") None 5;
            OpAddNode "node2" "a:2"; OpInitialize; OpAddNode "node3" "a:3";
            OpAddNode "node4" "a:4"] chain0 = Some c ∧
       topology_ok c = true.
Proof.
  apply (X1_reachable_chain_is_well_shaped 3 3 chain0). vm_compute. reflexivity.
Defined.

(** X2.  On a well-shaped chain [IsHeadNode] answers whether the id is
    that of the first node added and [IsTailNode] whether it is that of
    the last one; on a chain without nodes both answer no. *)
Theorem X2_head_is_first_and_tail_is_last (c : Chain) (nodeID : string) :
  topology_ok c = true →
  IsHeadNode c nodeID =
    match nodes c !! 0%nat with
    | Some nd => bool_decide (Node_ID nd = nodeID)
    | None => false
    end ∧
  IsTailNode c nodeID =
    match last (nodes c) with
    | Some nd => bool_decide (Node_ID nd = nodeID)
    | None => false
    end.
Proof.
  intros (_ & Hhead & Htail & _)%topology_ok_unfold.
  unfold IsHeadNode, IsTailNode. rewrite Hhead, Htail, last_lookup.
  destruct (nodes c) as [|nd rest]; [done|]. simpl.
  by replace (length rest - 0)%nat with (length rest) by lia.
Qed.

Lemma X2_head_is_first_and_tail_is_last_witness :
  IsHeadNode chain1 "node1" = true ∧ IsTailNode chain1 "node1" = true.
Proof.
  assert (topology_ok chain1 = true) as Hok by (vm_compute; reflexivity).
  destruct (X2_head_is_first_and_tail_is_last chain1 "node1" Hok) as [-> ->].
  split; vm_compute; reflexivity.
Defined.

(** X3.  On a well-shaped chain [Write] fails exactly when no node was
    added: it then returns the error and leaves the chain as it was;
    with at least one node it succeeds and starts one goroutine. *)
Theorem X3_write_needs_a_node (c : Chain) (blockID : string) (data metadata : bytes)
    (now : Z) :
  topology_ok c = true →
  if nodes c is [] then
    Write c blockID data metadata now =
      (c, Some (errors_New "chain has no head node"), None)
  else
    ∃ c' g, Write c blockID data metadata now = (c', None, Some g).
Proof.
  intros (_ & Hhead & _)%topology_ok_unfold. unfold Write. rewrite Hhead.
  destruct (nodes c) as [|nd rest]; [done|].
  destruct (blocks c !! blockID); by eexists _, _.
Qed.

Lemma X3_write_needs_a_node_witness :
  Write chain0 "abc123" (str "x") None 5 =
    (chain0, Some (errors_New "chain has no head node"), None).
Proof.
  apply (X3_write_needs_a_node chain0 "abc123" (str "x") None 5).
  vm_compute. reflexivity.
Defined.

End topology_properties.

(** ** More on the chain: reads, deletes and schedules *)

Section chain_properties.

Import craq ledger topology scenario.

Lemma latest_clean_from_dirty_suffix (pre post : list BlockVersion) (v : BlockVersion) :
  Clean v = true → existsb Clean post = false →
  latest_clean_from (pre ++ v :: post) (length (pre ++ v :: post)) = Some v.
Proof.
  intros Hv. induction post as [|u post IH] using rev_ind; intros Hpost.
  - by apply latest_clean_from_last.
  - rewrite existsb_app in Hpost. apply orb_false_iff in Hpost as [Hpost Hu].
    simpl in Hu. apply orb_false_iff in Hu as [Hu _].
    change (pre ++ v :: post ++ [u]) with (pre ++ (v :: post) ++ [u]).
    rewrite app_assoc, latest_clean_from_snoc_dirty by done. by apply IH.
Qed.

(** X4.  When a block has a clean version, [Read] returns the data and
    metadata of the clean version that was appended last, whatever dirty
    versions follow it, and no error. *)
Theorem X4_read_returns_latest_clean (c : Chain) (blockID : string)
    (pre post : list BlockVersion) (v : BlockVersion) :
  versions_of c blockID = pre ++ v :: post →
  Clean v = true →
  existsb Clean post = false →
  Read c blockID = (Data v, Metadata v, None).
Proof.
  intros Hvs Hv Hpost.
  destruct (versions_of c blockID) as [|oldest rest] eqn:Hcons.
  { by destruct pre. }
  rewrite (Read_versions _ _ _ _ Hcons), Hvs.
  by rewrite latest_clean_from_dirty_suffix.
Qed.

Lemma X4_read_returns_latest_clean_witness :
  Read (run_goroutine (MarkClean 0%nat 1) chain3) "abc123" =
    (str "old", (Read chain2 "abc123").1.2, None).
Proof.
  apply (X4_read_returns_latest_clean _ "abc123" []
           [mkBlockVersion 2 (str "new") (str "{}") 201 false]
           (mkBlockVersion 1 (str "old") ((Read chain2 "abc123").1.2) 101 true));
    vm_compute; reflexivity.
Defined.



End chain_properties.
